(** * The word-practice page (HomePage) of the vocabulary drill

    A shallow embedding of the page component: the two module-level
    helpers [normalizeIndex] and [shuffleArray], the React state of the
    component, its event handlers, its effects, and the way the page
    dispatches clicks and key presses to the handlers.

    Conventions.
    - A JavaScript string is a [string]; each character stands for one
      UTF-16 code unit (the Latin-1 range, which holds the German letters
      as single units), so [String.length] is the [.length] of the source.
    - A JavaScript number is a [number]: an integer, a fraction whose
      denominator is a power of two (every finite double is one of the
      two), [NaN] or an infinity.  Integers are kept exact, as doubles are
      below 2^53; a sum that involves a fraction is rounded to the 53 bits
      of a double.  The two zeros are not told apart.
    - [Record<string, number>] is a [gmap string Value]: the type of the
      source does not keep a stored record from holding other values than
      numbers, and a read of the record also finds what it inherits.
    - A handler is a function of the render it was created in (the values
      of [currentWord], [isLocked] and [userInput] its closure holds) that
      yields a state update; the update is applied to the latest state, as
      React applies the functional updaters. *)

From Stdlib Require Import ZArith Ascii String DecimalString.
From stdpp Require Import gmap strings list fin_maps.

(** ** Numbers of the host *)

Inductive number :=
| Int (z : Z)
| Frac (m : Z) (e : positive)     (* [m / 2^e] with [m] odd *)
| NaN
| Infinity (negative : bool).

#[global] Instance number_eq_dec : EqDecision number.
Proof. solve_decision. Defined.

(** [m / 2^e] in lowest terms. *)
Fixpoint reduce (m : positive) (e : nat) {struct e} : positive * nat :=
  match e with
  | O => (m, e)
  | S e' => match m with
            | xO m' => reduce m' e'
            | _ => (m, e)
            end
  end.

(** The number [m / 2^e]. *)
Definition dyadic (m : Z) (e : nat) : number :=
  match m with
  | Z0 => Int 0
  | Zpos p =>
      let (q, k) := reduce p e in
      match k with O => Int (Zpos q) | S _ => Frac (Zpos q) (Pos.of_nat k) end
  | Zneg p =>
      let (q, k) := reduce p e in
      match k with O => Int (Zneg q) | S _ => Frac (Zneg q) (Pos.of_nat k) end
  end.

(** A finite number as [m / 2^e]. *)
Definition finite (x : number) : option (Z * nat) :=
  match x with
  | Int z => Some (z, 0)
  | Frac m e => Some (m, Pos.to_nat e)
  | NaN | Infinity _ => None
  end.

(** The double nearest to [m / 2^e], ties to the even mantissa. *)
Definition round53 (m : Z) (e : nat) : number :=
  let a := Z.abs m in
  let k := (Z.log2 a + 1 - 53)%Z in
  if (k <=? 0)%Z then dyadic m e
  else
    let q := Z.shiftr a k in
    let r := (a - Z.shiftl q k)%Z in
    let half := Z.shiftl 1 (k - 1) in
    let q' := if (half <? r)%Z || ((r =? half)%Z && Z.odd q)
              then (q + 1)%Z else q in
    let n := (Z.sgn m * q')%Z in
    if (Z.of_nat e <=? k)%Z then Int (n * 2 ^ (k - Z.of_nat e))
    else dyadic n (e - Z.to_nat k).

(** [x + y].  The sum of two integers is exact; any other finite sum is
    the exact sum rounded. *)
Definition number_add (x y : number) : number :=
  match x, y with
  | Int a, Int b => Int (a + b)
  | _, _ =>
      match finite x, finite y with
      | Some (m1, e1), Some (m2, e2) =>
          let e := e1 `max` e2 in
          round53 (m1 * 2 ^ Z.of_nat (e - e1) + m2 * 2 ^ Z.of_nat (e - e2)) e
      | None, Some _ => x
      | Some _, None => y
      | None, None =>
          match x, y with
          | Infinity a, Infinity b => if Bool.eqb a b then x else NaN
          | _, _ => NaN
          end
      end
  end.

(** [x % y]: the remainder of the truncated division, which has the sign
    of [x] and is exact. *)
Definition number_rem (x y : number) : number :=
  match finite x, finite y with
  | Some (m1, e1), Some (m2, e2) =>
      if (m2 =? 0)%Z then NaN
      else
        let e := e1 `max` e2 in
        dyadic (Z.rem (m1 * 2 ^ Z.of_nat (e - e1)) (m2 * 2 ^ Z.of_nat (e - e2))) e
  | Some _, None => match y with Infinity _ => x | _ => NaN end
  | None, _ => NaN
  end.

(** [x === 0] *)
Definition is_zero (x : number) : bool :=
  match x with Int 0 => true | _ => false end.

(** ** Module-level helpers *)

Definition normalizeIndex (index total : number) : number :=
  if is_zero total then Int 0
  else number_rem (number_add (number_rem index total) total) total.

(** [[array[i], array[j]] = [array[j], array[i]]]: both reads come first,
    then [array[i]] and [array[j]] are written in that order.  The loop of
    [shuffleArray] only calls it with [j <= i < array.length]; outside that
    range the source would store [undefined], which this model leaves out. *)
Definition swap {A} (i j : nat) (array : list A) : list A :=
  match array !! i, array !! j with
  | Some ai, Some aj => <[j := ai]> (<[i := aj]> array)
  | _, _ => array
  end.

(** The body of the [for] loop, from [i] down to 1.  [rnd i] is the value
    of [Math.floor(Math.random() * (i + 1))] drawn in iteration [i]. *)
Fixpoint shuffle_loop {A} (rnd : nat → nat) (i : nat) (array : list A) : list A :=
  match i with
  | O => array
  | S i' => shuffle_loop rnd i' (swap i (rnd i) array)
  end.

Definition shuffleArray {A} (rnd : nat → nat) (input : list A) : list A :=
  shuffle_loop rnd (length input - 1) input.


(** ** Strings of the host *)

(** [String.prototype.toLowerCase] on one code unit of the Latin-1 range:
    A..Z and the accented capitals 192..222 (but not the multiplication
    sign, 215) move up by 32; every other unit stays. *)
Definition lower_unit (c : ascii) : ascii :=
  let n := nat_of_ascii c in
  if ((65 <=? n) && (n <=? 90)) || ((192 <=? n) && (n <=? 222) && negb (n =? 215))
  then ascii_of_nat (n + 32)
  else c.

Fixpoint toLowerCase (s : string) : string :=
  match s with
  | EmptyString => EmptyString
  | String c rest => String (lower_unit c) (toLowerCase rest)
  end.

(** [array.join("")] *)
Definition join (parts : list string) : string := String.concat EmptyString parts.

(** A number inside a template literal. *)
Definition number_to_string (z : Z) : string := NilZero.string_of_int (Z.to_int z).

(** ** Data model *)

Record Hints := { tip : option string }.

Record Word := {
  id : string;
  word : string;
  audioUrl : string;
  letters : list string;
  hints : option Hints;
}.

Inductive FeedbackTone := tone_neutral | tone_success | tone_error.

Inductive Status := status_idle | status_success | status_error.

Record Feedback := { message : string; tone : FeedbackTone }.

(** What a property of the mistake record can hold.  The page itself
    stores numbers; the record read back from the storage can hold any
    value of a JSON text, of which [null], the booleans, the numbers and
    the strings are modelled (a counter that is an array or an object is
    left out).  [VSource member rest] is the string that starts with the
    source text the host prints for its built-in function
    [Object.prototype[member]] and goes on with [rest]. *)
Inductive Value :=
| VNull
| VBool (b : bool)
| VNumber (x : number)
| VString (text : string)
| VSource (member rest : string).

#[global] Instance Value_eq_dec : EqDecision Value.
Proof. solve_decision. Defined.

(** The three cue sounds held in refs. *)
Inductive Sound := letterSound | errorSound | successSound.

(** The [useState] cells of [HomePage].  [played] is not a cell of the
    source: it logs the calls of [playSound], latest last. *)
Record State := {
  currentIndex : number;
  userInput : list string;
  isLocked : bool;
  status : Status;
  feedback : Feedback;
  mistakes : gmap string Value;
  progressLoaded : bool;
  isAudioBusy : bool;
  audioAvailable : bool;
  shake : bool;
  showNextPopup : bool;
  shuffledLetters : list string;
  played : list Sound;
}.

Definition setCurrentIndex (v : number) (s : State) : State :=
  {| currentIndex := v; userInput := userInput s; isLocked := isLocked s;
     status := status s; feedback := feedback s; mistakes := mistakes s;
     progressLoaded := progressLoaded s; isAudioBusy := isAudioBusy s;
     audioAvailable := audioAvailable s; shake := shake s;
     showNextPopup := showNextPopup s; shuffledLetters := shuffledLetters s;
     played := played s |}.

Definition setUserInput (v : list string) (s : State) : State :=
  {| currentIndex := currentIndex s; userInput := v; isLocked := isLocked s;
     status := status s; feedback := feedback s; mistakes := mistakes s;
     progressLoaded := progressLoaded s; isAudioBusy := isAudioBusy s;
     audioAvailable := audioAvailable s; shake := shake s;
     showNextPopup := showNextPopup s; shuffledLetters := shuffledLetters s;
     played := played s |}.

Definition setIsLocked (v : bool) (s : State) : State :=
  {| currentIndex := currentIndex s; userInput := userInput s; isLocked := v;
     status := status s; feedback := feedback s; mistakes := mistakes s;
     progressLoaded := progressLoaded s; isAudioBusy := isAudioBusy s;
     audioAvailable := audioAvailable s; shake := shake s;
     showNextPopup := showNextPopup s; shuffledLetters := shuffledLetters s;
     played := played s |}.

Definition setStatus (v : Status) (s : State) : State :=
  {| currentIndex := currentIndex s; userInput := userInput s; isLocked := isLocked s;
     status := v; feedback := feedback s; mistakes := mistakes s;
     progressLoaded := progressLoaded s; isAudioBusy := isAudioBusy s;
     audioAvailable := audioAvailable s; shake := shake s;
     showNextPopup := showNextPopup s; shuffledLetters := shuffledLetters s;
     played := played s |}.

Definition setFeedback (v : Feedback) (s : State) : State :=
  {| currentIndex := currentIndex s; userInput := userInput s; isLocked := isLocked s;
     status := status s; feedback := v; mistakes := mistakes s;
     progressLoaded := progressLoaded s; isAudioBusy := isAudioBusy s;
     audioAvailable := audioAvailable s; shake := shake s;
     showNextPopup := showNextPopup s; shuffledLetters := shuffledLetters s;
     played := played s |}.

Definition setMistakes (v : gmap string Value) (s : State) : State :=
  {| currentIndex := currentIndex s; userInput := userInput s; isLocked := isLocked s;
     status := status s; feedback := feedback s; mistakes := v;
     progressLoaded := progressLoaded s; isAudioBusy := isAudioBusy s;
     audioAvailable := audioAvailable s; shake := shake s;
     showNextPopup := showNextPopup s; shuffledLetters := shuffledLetters s;
     played := played s |}.

Definition setProgressLoaded (v : bool) (s : State) : State :=
  {| currentIndex := currentIndex s; userInput := userInput s; isLocked := isLocked s;
     status := status s; feedback := feedback s; mistakes := mistakes s;
     progressLoaded := v; isAudioBusy := isAudioBusy s;
     audioAvailable := audioAvailable s; shake := shake s;
     showNextPopup := showNextPopup s; shuffledLetters := shuffledLetters s;
     played := played s |}.

Definition setIsAudioBusy (v : bool) (s : State) : State :=
  {| currentIndex := currentIndex s; userInput := userInput s; isLocked := isLocked s;
     status := status s; feedback := feedback s; mistakes := mistakes s;
     progressLoaded := progressLoaded s; isAudioBusy := v;
     audioAvailable := audioAvailable s; shake := shake s;
     showNextPopup := showNextPopup s; shuffledLetters := shuffledLetters s;
     played := played s |}.

Definition setAudioAvailable (v : bool) (s : State) : State :=
  {| currentIndex := currentIndex s; userInput := userInput s; isLocked := isLocked s;
     status := status s; feedback := feedback s; mistakes := mistakes s;
     progressLoaded := progressLoaded s; isAudioBusy := isAudioBusy s;
     audioAvailable := v; shake := shake s;
     showNextPopup := showNextPopup s; shuffledLetters := shuffledLetters s;
     played := played s |}.

Definition setShake (v : bool) (s : State) : State :=
  {| currentIndex := currentIndex s; userInput := userInput s; isLocked := isLocked s;
     status := status s; feedback := feedback s; mistakes := mistakes s;
     progressLoaded := progressLoaded s; isAudioBusy := isAudioBusy s;
     audioAvailable := audioAvailable s; shake := v;
     showNextPopup := showNextPopup s; shuffledLetters := shuffledLetters s;
     played := played s |}.

Definition setShowNextPopup (v : bool) (s : State) : State :=
  {| currentIndex := currentIndex s; userInput := userInput s; isLocked := isLocked s;
     status := status s; feedback := feedback s; mistakes := mistakes s;
     progressLoaded := progressLoaded s; isAudioBusy := isAudioBusy s;
     audioAvailable := audioAvailable s; shake := shake s;
     showNextPopup := v; shuffledLetters := shuffledLetters s;
     played := played s |}.

Definition setShuffledLetters (v : list string) (s : State) : State :=
  {| currentIndex := currentIndex s; userInput := userInput s; isLocked := isLocked s;
     status := status s; feedback := feedback s; mistakes := mistakes s;
     progressLoaded := progressLoaded s; isAudioBusy := isAudioBusy s;
     audioAvailable := audioAvailable s; shake := shake s;
     showNextPopup := showNextPopup s; shuffledLetters := v;
     played := played s |}.

(** [playSound(ref)] *)
Definition playSound (snd : Sound) (s : State) : State :=
  {| currentIndex := currentIndex s; userInput := userInput s; isLocked := isLocked s;
     status := status s; feedback := feedback s; mistakes := mistakes s;
     progressLoaded := progressLoaded s; isAudioBusy := isAudioBusy s;
     audioAvailable := audioAvailable s; shake := shake s;
     showNextPopup := showNextPopup s; shuffledLetters := shuffledLetters s;
     played := played s ++ [snd] |}.

Definition triggerShake (s : State) : State := setShake true s.

Definition noFeedback : Feedback :=
  {| message := EmptyString; tone := tone_neutral |}.

(** ** The mistake record as an object *)

(** The members every plain object inherits from [Object.prototype]. *)
Definition objectPrototype : list string :=
  ["constructor"; "hasOwnProperty"; "isPrototypeOf"; "propertyIsEnumerable";
   "toLocaleString"; "toString"; "valueOf"; "__proto__";
   "__defineGetter__"; "__defineSetter__"; "__lookupGetter__";
   "__lookupSetter__"].

(** What [prev[key]] finds. *)
Inductive Found :=
| Undefined
| Own (v : Value)
| Inherited (member : string).

(** [prev[key]]: an own property first, then the prototype. *)
Definition getProperty (prev : gmap string Value) (key : string) : Found :=
  match prev !! key with
  | Some v => Own v
  | None => if bool_decide (key ∈ objectPrototype) then Inherited key
            else Undefined
  end.

(** [(found ?? 0) + 1].  [+] adds numbers and joins strings: a boolean
    counts as 0 or 1; a function joins as its source text; the prototype
    object, which [__proto__] gives, joins as [[object Object]]. *)
Definition plusOne (found : Found) : Value :=
  match found with
  | Undefined | Own VNull => VNumber (Int 1)
  | Own (VBool b) => VNumber (Int (if b then 2 else 1))
  | Own (VNumber x) => VNumber (number_add x (Int 1))
  | Own (VString text) => VString (text ++ "1")
  | Own (VSource member rest) => VSource member (rest ++ "1")
  | Inherited member =>
      if String.eqb member "__proto__" then VString "[object Object]1"
      else VSource member "1"
  end.

(** ** Browser storage *)

(** What [parsed.index] gives, as far as [normalizeIndex] reads it: its
    only use is as the left operand of [%], which converts it to a number
    first.  [IndexMissing] is [undefined] or [null], which [??] replaces;
    [IndexNumber x] is a value that converts to [x] (a number is [x]
    itself; a string, a boolean or an array converts); [IndexThrows] is an
    object that has no primitive value, on which [%] throws. *)
Inductive StoredIndex :=
| IndexMissing
| IndexNumber (x : number)
| IndexThrows.

(** What [JSON.parse] makes of a stored text, as far as the loading effect
    reads it.  [ParsedRecord] stands for every value but [null]; a value
    that is no object has neither field.  For [parsed.mistakes], [None]
    is [undefined] or [null], which [??] replaces; a value that is there
    is taken to be an object.  [JSON.stringify] followed by [JSON.parse]
    gives a value back, which is why a stored text is kept here as its
    parsed form. *)
Inductive Parsed :=
| ParsedNull                (* reading a field of it throws a TypeError *)
| ParsedRecord (index : StoredIndex) (saved : option (gmap string Value)).

Inductive StoredText :=
| EmptyText                 (* falsy: skipped by [if (stored)] *)
| Garbled                   (* [JSON.parse] throws a SyntaxError *)
| JsonText (p : Parsed).

(** [window.localStorage] at [STORAGE_KEY]; when [available] is false,
    [getItem] and [setItem] throw. *)
Record Storage := { available : bool; item : option StoredText }.

Inductive Thrown := SecurityError | SyntaxError | TypeError.

Definition getItem (sto : Storage) : Thrown + option StoredText :=
  if available sto then inr (item sto) else inl SecurityError.

Definition setItem (v : StoredText) (sto : Storage) : Thrown + Storage :=
  if available sto then inr {| available := true; item := Some v |}
  else inl SecurityError.

Definition JSON_parse (t : StoredText) : Thrown + Parsed :=
  match t with
  | JsonText p => inr p
  | EmptyText | Garbled => inl SyntaxError
  end.

(** [parsed.index ?? 0] as the operand of [%]: [None] when the conversion
    throws. *)
Definition indexOperand (i : StoredIndex) : option number :=
  match i with
  | IndexMissing => Some (Int 0)
  | IndexNumber x => Some x
  | IndexThrows => None
  end.

(** [JSON.stringify] writes [null] for a number that is not finite. *)
Definition jsonIndex (x : number) : StoredIndex :=
  match x with
  | NaN | Infinity _ => IndexMissing
  | _ => IndexNumber x
  end.

Definition jsonValue (v : Value) : Value :=
  match v with
  | VNumber NaN | VNumber (Infinity _) => VNull
  | _ => v
  end.

Definition JSON_stringify (index : number) (m : gmap string Value) : StoredText :=
  JsonText (ParsedRecord (jsonIndex index) (Some (jsonValue <$> m))).

(** ** The component *)

(** What the handlers of one render read from their closure. *)
Record Render := {
  r_currentWord : Word;
  r_isLocked : bool;
  r_userInput : list string;
}.

(** The closure of the handlers created in the render of state [s] with
    current word [cw]. *)
Definition renderAt (s : State) (cw : Word) : Render :=
  {| r_currentWord := cw; r_isLocked := isLocked s;
     r_userInput := userInput s |}.

Inductive Event :=
| ClickTile (i : nat)
| ClickBackspace
| ClickCheck
| ClickClear
| ClickNext
| KeyDown (key : string)
| AnimationEnd
| AudioClick
| AudioRejected             (* the promise of [play()] rejects *)
| AudioEnded
| AudioPaused
| AudioFailed.              (* [onError] of the audio element *)

(** The page between two events: the committed state, the [keydown]
    listener that is registered on [window] ([None] when its closure has
    no current word), and the storage. *)
Record World := {
  st : State;
  listener : option Render;
  storage : Storage;
}.

Section HomePage.

Variable words : list Word.

(** [words.length] *)
Definition total : Z := Z.of_nat (length words).

(** [words[currentIndex]]: an entry for an integer within the array,
    [undefined] for every other number. *)
Definition currentWord (s : State) : option Word :=
  match currentIndex s with
  | Int i => if (i <? 0)%Z then None else words !! Z.to_nat i
  | _ => None
  end.

Definition allowedLetters (cw : Word) : gset string :=
  list_to_set (toLowerCase <$> letters cw).

Definition initialState : State :=
  {| currentIndex := Int 0; userInput := []; isLocked := false;
     status := status_idle; feedback := noFeedback; mistakes := ∅;
     progressLoaded := false; isAudioBusy := false;
     audioAvailable := true; shake := false; showNextPopup := false;
     shuffledLetters := from_option letters [] (words !! 0);
     played := [] |}.

Definition render_of (s : State) : option Render :=
  renderAt s <$> currentWord s.

(** *** Handlers *)

Definition handleLetterClick (r : Render) (letter : string) (s : State) : State :=
  if r_isLocked r then s
  else if String.length (word (r_currentWord r)) <=? length (r_userInput r)
  then triggerShake s
  else setUserInput (userInput s ++ [letter]) (playSound letterSound s).

Definition handleBackspace (r : Render) (s : State) : State :=
  if r_isLocked r || (length (r_userInput r) =? 0) then s
  else setUserInput (take (length (userInput s) - 1) (userInput s)) s.

Definition handleClear (r : Render) (s : State) : State :=
  if r_isLocked r || (length (r_userInput r) =? 0) then s
  else setStatus status_idle (setFeedback noFeedback (setUserInput [] s)).

Definition lengthMessage (remaining : Z) : string :=
  if (0 <? remaining)%Z
  then "Dir fehlen noch " ++ number_to_string remaining ++ " Buchstabe"
       ++ (if (remaining =? 1)%Z then EmptyString else "n") ++ "."
  else "Du hast zu viele Buchstaben gew" ++ String "228"%char "hlt.".

Definition hintText (cw : Word) : string :=
  match hints cw with
  | Some {| tip := Some t |} =>
      if String.length t =? 0 then "Versuch es noch einmal." else "Tipp: " ++ t
  | _ => "Versuch es noch einmal."
  end.

Definition handleCheck (r : Render) (s : State) : State :=
  let cw := r_currentWord r in
  if r_isLocked r then s
  else
    let attempt := join (r_userInput r) in
    if String.length attempt =? 0 then
      triggerShake
        (setStatus status_error
           (setFeedback {| message := "Fang mit einem Buchstaben an!";
                           tone := tone_error |}
              (playSound errorSound s)))
    else if negb (String.length attempt =? String.length (word cw)) then
      let remaining :=
        (Z.of_nat (String.length (word cw)) - Z.of_nat (String.length attempt))%Z in
      triggerShake
        (setStatus status_error
           (setFeedback {| message := lengthMessage remaining; tone := tone_error |}
              (playSound errorSound s)))
    else if String.eqb attempt (word cw) then
      setShowNextPopup true
        (playSound successSound
           (setFeedback {| message := "Richtig!"; tone := tone_success |}
              (setStatus status_success (setIsLocked true s))))
    else
      setMistakes
        (<[id cw := plusOne (getProperty (mistakes s) (id cw))]> (mistakes s))
        (triggerShake
           (setStatus status_error
              (setFeedback {| message := "Noch nicht ganz richtig. " ++ hintText cw;
                              tone := tone_error |}
                 (playSound errorSound s)))).

Definition handleNext (s : State) : State :=
  if length words =? 0 then s
  else setCurrentIndex
         (normalizeIndex (number_add (currentIndex s) (Int 1)) (Int total))
         (setShowNextPopup false s).

Definition handleAnimationEnd (s : State) : State :=
  if shake s then setShake false s else s.

(** The dash of this message lies outside the Latin-1 range and is kept
    as its UTF-8 bytes; no handler takes the length of a message. *)
Definition audioMissing : Feedback :=
  {| message := "Audio fehlt – bitte Lehrer:in informieren.";
     tone := tone_error |}.

(** [handleAudioClick] up to its [await]. *)
Definition handleAudioClick (s : State) : State :=
  if negb (audioAvailable s) then s else setIsAudioBusy true s.

(** The [catch] of [handleAudioClick], and [onError] of the audio element. *)
Definition audioUnavailable (s : State) : State :=
  setFeedback audioMissing (setAudioAvailable false (setIsAudioBusy false s)).

(** [onEnded] and [onPause] of the audio element. *)
Definition audioStopped (s : State) : State := setIsAudioBusy false s.

(** The listener body; [r] is the render in which the listener was
    registered. *)
Definition handleKeydown (r : Render) (key : string) (s : State) : State :=
  if String.eqb key "Backspace" then handleBackspace r s
  else if String.eqb key "Enter" then handleCheck r s
  else if String.eqb key "Escape" then handleClear r s
  else
    let k := toLowerCase key in
    if (String.length k =? 1) && bool_decide (k ∈ allowedLetters (r_currentWord r))
    then handleLetterClick r k s
    else s.

(** *** Effects *)

(** The body of the [try] of the loading effect: a state, or what was
    thrown before any state was set. *)
Definition loadBody (sto : Storage) (s : State) : Thrown + State :=
  match getItem sto with
  | inl e => inl e
  | inr None => inr s
  | inr (Some EmptyText) => inr s
  | inr (Some t) =>
      match JSON_parse t with
      | inl e => inl e
      | inr ParsedNull => inl TypeError
      | inr (ParsedRecord i m) =>
          match indexOperand i with
          | None => inl TypeError
          | Some x =>
              inr (setMistakes (default ∅ m)
                     (setCurrentIndex (normalizeIndex x (Int total)) s))
          end
      end
  end.

Definition loadEffect (sto : Storage) (s : State) : State :=
  if length words =? 0 then s
  else
    setProgressLoaded true
      match loadBody sto s with
      | inr s' => s'
      | inl _ => s          (* caught and logged *)
      end.

Definition saveEffect (s : State) (sto : Storage) : Storage :=
  if progressLoaded s then
    match setItem (JSON_stringify (currentIndex s) (mistakes s)) sto with
    | inr sto' => sto'
    | inl _ => sto          (* caught and logged *)
    end
  else sto.

(** The effect that resets the session for a new current word. *)
Definition resetEffect (cw : option Word) (s : State) : State :=
  match cw with
  | None => s
  | Some w =>
      setShuffledLetters (letters w)
        (setShowNextPopup false
           (setIsAudioBusy false
              (setAudioAvailable true
                 (setShake false
                    (setFeedback noFeedback
                       (setStatus status_idle
                          (setIsLocked false (setUserInput [] s))))))))
  end.

Definition shuffleEffect (rnd : nat → nat) (cw : option Word) (s : State) : State :=
  match cw with
  | None => setShuffledLetters [] s
  | Some w => setShuffledLetters (shuffleArray rnd (letters w)) s
  end.

(** [currentWord] of the new render is another object than that of the
    previous one: the dependency test of the effects on [[currentWord]]. *)
Definition wordChanged (prev next : State) : bool :=
  match currentWord prev, currentWord next with
  | None, None => false
  | Some _, Some _ => negb (bool_decide (currentIndex prev = currentIndex next))
  | _, _ => true
  end.

(** The dependency test of the saving effect.  React compares the
    mistake records as objects, and [handleCheck] makes a new object each
    time it counts; here the contents are compared.  The two differ only
    when the new record has the contents of the old one (a counter that
    is an infinity stays one), and then the effect writes again the text
    that it wrote for the old record. *)
Definition progressChanged (prev next : State) : bool :=
  negb (bool_decide (currentIndex prev = currentIndex next))
  || negb (bool_decide (mistakes prev = mistakes next))
  || negb (Bool.eqb (progressLoaded prev) (progressLoaded next)).

(** The render that follows a state change, with the effects whose
    dependencies changed.  The effects run with the values of that render
    ([next]); what they set shows in the render after it, in which no
    dependency of theirs has changed. *)
Definition commit (rnd : nat → nat) (w : World) (next : State) : World :=
  let sto := if progressChanged (st w) next
             then saveEffect next (storage w) else storage w in
  if wordChanged (st w) next then
    {| st := shuffleEffect rnd (currentWord next)
               (resetEffect (currentWord next) next);
       listener := render_of next;
       storage := sto |}
  else {| st := next; listener := listener w; storage := sto |}.

(** The first render and its effects, then the render they cause. *)
Definition mount (rnd1 rnd2 : nat → nat) (sto : Storage) : World :=
  let first := initialState in
  let cw := currentWord first in
  commit rnd2
    {| st := first; listener := render_of first; storage := sto |}
    (shuffleEffect rnd1 cw (resetEffect cw (loadEffect sto first))).

(** One event.  Buttons call the handlers of the render on screen; a key
    press calls the registered listener.  Without a current word the page
    shows no control and the listener returns at once.  A button that the
    page disables runs a handler that returns at once on the same test;
    the next-button exists only while the popup is shown. *)
Definition dispatch (e : Event) (w : World) : State :=
  let s := st w in
  match e with
  | KeyDown key =>
      match listener w with
      | Some lr => handleKeydown lr key s
      | None => s
      end
  | _ =>
      match render_of s with
      | None => s
      | Some r =>
          match e with
          | ClickTile i =>
              match shuffledLetters s !! i with
              | Some letter => handleLetterClick r letter s
              | None => s
              end
          | ClickBackspace => handleBackspace r s
          | ClickCheck => handleCheck r s
          | ClickClear => handleClear r s
          | ClickNext => if showNextPopup s then handleNext s else s
          | KeyDown _ => s
          | AnimationEnd => handleAnimationEnd s
          | AudioClick => if isAudioBusy s then s else handleAudioClick s
          | AudioRejected | AudioFailed => audioUnavailable s
          | AudioEnded | AudioPaused => audioStopped s
          end
      end
  end.

Definition step (rnd : nat → nat) (e : Event) (w : World) : World :=
  commit rnd w (dispatch e w).

Fixpoint run (rnd : nat → nat) (es : list Event) (w : World) : World :=
  match es with
  | [] => w
  | e :: es' => run rnd es' (step rnd e w)
  end.

(** The states of the page: after mounting on some storage, and after any
    event from there, under any draws of the shuffle. *)
Inductive reachable : World → Prop :=
| reach_mount rnd1 rnd2 sto : reachable (mount rnd1 rnd2 sto)
| reach_step rnd e w : reachable w → reachable (step rnd e w).

End HomePage.

(** ** What the statements speak of *)

(** Each letter occurs in [attempt] at most as often as in the letters
    list of the word. *)
Definition withinLetterMultiset (cw : Word) (attempt : list string) : Prop :=
  ∀ a, count_occ string_dec attempt a ≤ count_occ string_dec (letters cw) a.

(** Each letter of [attempt] is one of the word's letters as written, or
    the lowercase form of one. *)
Definition drawnFromLetters (words : list Word) (s : State) : Prop :=
  ∀ cw a, currentWord words s = Some cw → a ∈ userInput s →
    a ∈ letters cw ∨ a ∈ allowedLetters cw.

(** A stored value the loading effect cannot use: storage that throws, no
    item, an empty text, a text that does not parse, the text [null], or
    a record whose index cannot be converted to a number. *)
Definition unusable (sto : Storage) : Prop :=
  available sto = false ∨ item sto = None ∨ item sto = Some EmptyText
  ∨ item sto = Some Garbled ∨ item sto = Some (JsonText ParsedNull)
  ∨ ∃ m, item sto = Some (JsonText (ParsedRecord IndexThrows m)).

(** A mistake record that [JSON.stringify] writes as it is: no counter
    is [NaN] or an infinity. *)
Definition storable (m : gmap string Value) : Prop := jsonValue <$> m = m.

(** The stored index, when the loading effect comes to read one as a
    number, is an integer. *)
Definition integerIndex (sto : Storage) : Prop :=
  ∀ x m, available sto = true →
         item sto = Some (JsonText (ParsedRecord (IndexNumber x) m)) →
         ∃ i, x = Int i.

(** What a handler other than [handleNext] leaves alone. *)
Definition keepsPage (s s' : State) : Prop :=
  currentIndex s' = currentIndex s
  ∧ shuffledLetters s' = shuffledLetters s
  ∧ progressLoaded s' = progressLoaded s
  ∧ ((showNextPopup s = true → isLocked s = true) →
     showNextPopup s' = true → isLocked s' = true).

(** The attempt after a handler: a prefix of the attempt before, or the
    attempt before with [letter] behind it. *)
Definition attemptStep (letter : option string) (s s' : State) : Prop :=
  (∃ k, userInput s' = take k (userInput s))
  ∨ (∃ a, letter = Some a ∧ userInput s' = userInput s ++ [a]).

(** What holds of the page between two events. *)
Record Consistent (words : list Word) (w : World) : Prop := {
  listener_current :
    ∀ lr, listener w = Some lr →
          currentWord words (st w) = Some (r_currentWord lr);
  tiles_permuted :
    ∀ cw, currentWord words (st w) = Some cw →
          shuffledLetters (st w) ≡ₚ letters cw;
  attempt_drawn : drawnFromLetters words (st w);
  popup_locked : showNextPopup (st w) = true → isLocked (st w) = true;
  locked_word :
    isLocked (st w) = true → is_Some (currentWord words (st w));
  progress_loaded : words ≠ [] → progressLoaded (st w) = true;
  progress_stored :
    words ≠ [] → available (storage w) = true →
    item (storage w)
    = Some (JSON_stringify (currentIndex (st w)) (mistakes (st w)));
}.

(** ** The view *)

(** The [disabled] attributes of the buttons, as the page renders them. *)
Definition tileDisabled (s : State) : bool := isLocked s.

Definition backspaceDisabled (s : State) : bool :=
  isLocked s || (length (userInput s) =? 0).

Definition checkDisabled (s : State) : bool := isLocked s.

Definition clearDisabled (s : State) : bool :=
  isLocked s || (length (userInput s) =? 0).

(** ** Sample data *)

Definition hund : Word :=
  {| id := "w1"; word := "hund"; audioUrl := "/audio/hund.mp3";
     letters := ["h"; "u"; "n"; "d"]; hints := None |}.

Definition katze : Word :=
  {| id := "w2"; word := "katze"; audioUrl := "/audio/katze.mp3";
     letters := ["k"; "a"; "t"; "z"; "e"];
     hints := Some {| tip := Some "Mit tz." |} |}.

(** A noun written with its capital. *)
Definition Haus : Word :=
  {| id := "w3"; word := "Haus"; audioUrl := "/audio/haus.mp3";
     letters := ["H"; "a"; "u"; "s"]; hints := Some {| tip := None |} |}.

(** An entry whose spelling is the empty string. *)
Definition blank : Word :=
  {| id := "w0"; word := EmptyString; audioUrl := "/audio/blank.mp3";
     letters := []; hints := None |}.

(** An entry whose id is the name of a member that every object
    inherits. *)
Definition inheritedId : Word :=
  {| id := "constructor"; word := "hund"; audioUrl := "/audio/hund.mp3";
     letters := ["h"; "u"; "n"; "d"]; hints := None |}.

(** Every draw of the shuffle lands on the cell itself. *)
Definition sameCell : nat → nat := λ i, i.

(** Every draw of the shuffle lands on the first cell. *)
Definition firstCell : nat → nat := λ _, 0.

Definition freshStorage : Storage := {| available := true; item := None |}.

Definition blockedStorage : Storage := {| available := false; item := None |}.

Definition garbledStorage : Storage :=
  {| available := true; item := Some Garbled |}.

(** The stored text [{"index":1.5}]. *)
Definition fractionStorage : Storage :=
  {| available := true;
     item := Some (JsonText (ParsedRecord (IndexNumber (Frac 3 1)) None)) |}.

(** The stored text [{"index":1e999}], whose index parses as an infinity. *)
Definition infinityStorage : Storage :=
  {| available := true;
     item := Some (JsonText (ParsedRecord (IndexNumber (Infinity false)) None)) |}.

Definition clicks (tiles : list nat) : list Event := ClickTile <$> tiles.

(** * Properties *)

(** ** The helpers *)

Lemma dyadic_int z : dyadic z 0 = Int z.
Proof. destruct z; reflexivity. Qed.

(** On integers [%] is the truncated remainder, [Z.rem]. *)
Lemma number_rem_int a b :
  b ≠ 0%Z → number_rem (Int a) (Int b) = Int (Z.rem a b).
Proof.
  intros Hb. unfold number_rem. simpl.
  destruct (Z.eqb_spec b 0) as [?|_]; [done|].
  rewrite !Z.mul_1_r. apply dyadic_int.
Qed.

Lemma normalizeIndex_int index n :
  n ≠ 0%Z →
  normalizeIndex (Int index) (Int n) = Int (Z.rem (Z.rem index n + n) n).
Proof.
  intros Hn. unfold normalizeIndex.
  replace (is_zero (Int n)) with false by (by destruct n).
  rewrite number_rem_int by done. simpl. by rewrite number_rem_int.
Qed.

Lemma normalizeIndex_mod index n :
  (0 < n)%Z → normalizeIndex (Int index) (Int n) = Int (index mod n).
Proof.
  intros Hpos. rewrite normalizeIndex_int by lia. f_equal.
  pose proof (Z.rem_bound_abs index n ltac:(lia)) as Habs.
  rewrite Z.rem_mod_nonneg by lia.
  rewrite <- (Z.mul_1_l n) at 2.
  rewrite Z.mod_add by lia.
  rewrite (Z.quot_rem' index n) at 2.
  rewrite Z.add_comm, Z.mul_comm, Z.mod_add by lia.
  reflexivity.
Qed.

Lemma normalizeIndex_valid index n :
  (0 <= index < n)%Z → normalizeIndex (Int index) (Int n) = Int index.
Proof.
  intros Hi. rewrite normalizeIndex_mod by lia. f_equal.
  apply Z.mod_small; lia.
Qed.

(** Without a finite operand on the left, [%] gives [NaN], and [NaN]
    stays through [+] and [%]. *)
Lemma normalizeIndex_not_finite x n :
  finite x = None → n ≠ 0%Z → normalizeIndex x (Int n) = NaN.
Proof.
  intros Hx Hn. unfold normalizeIndex.
  replace (is_zero (Int n)) with false by (by destruct n).
  unfold number_rem at 2. rewrite Hx. by destruct x.
Qed.

(** Exchanging two cells rearranges the array: the cell read at [k] after
    the exchange is the one that was at the transposed position. *)
Lemma swap_lookup {A} (i j k : nat) (array : list A) :
  i < length array → j < length array →
  swap i j array !! k
  = array !! (if decide (k = i) then j else if decide (k = j) then i else k).
Proof.
  intros Hli Hlj. unfold swap.
  destruct (lookup_lt_is_Some_2 array i Hli) as [ai Hi].
  destruct (lookup_lt_is_Some_2 array j Hlj) as [aj Hj].
  rewrite Hi, Hj.
  destruct (decide (k = j)) as [->|Hkj].
  - rewrite list_lookup_insert_eq by (by rewrite length_insert).
    repeat case_decide; subst; congruence.
  - rewrite list_lookup_insert_ne by done.
    destruct (decide (k = i)) as [->|Hki].
    + rewrite list_lookup_insert_eq by done. congruence.
    + by rewrite list_lookup_insert_ne.
Qed.

Lemma swap_length {A} (i j : nat) (array : list A) :
  length (swap i j array) = length array.
Proof.
  unfold swap. destruct (array !! i), (array !! j); try done.
  by rewrite !length_insert.
Qed.

Lemma swap_Permutation {A} (i j : nat) (array : list A) :
  swap i j array ≡ₚ array.
Proof.
  destruct (decide (i < length array)) as [Hli|Hli]; last first.
  { unfold swap. by rewrite (lookup_ge_None_2 array i) by lia. }
  destruct (decide (j < length array)) as [Hlj|Hlj]; last first.
  { unfold swap. rewrite (lookup_ge_None_2 array j) by lia.
    by destruct (array !! i). }
  apply Permutation_inj. split; [apply swap_length|].
  exists (λ k, if decide (k = i) then j else if decide (k = j) then i else k).
  split; [|intros k; by apply swap_lookup].
  intros a b Hab. repeat case_decide; subst; congruence.
Qed.

Lemma shuffle_loop_Permutation {A} rnd i (array : list A) :
  shuffle_loop rnd i array ≡ₚ array.
Proof.
  revert array. induction i as [|i IH]; intros array; simpl; [done|].
  rewrite IH. apply swap_Permutation.
Qed.

Lemma shuffleArray_Permutation {A} rnd (input : list A) :
  shuffleArray rnd input ≡ₚ input.
Proof. apply shuffle_loop_Permutation. Qed.

(** ** The handlers *)

Lemma total_pos (words : list Word) : words ≠ [] → (0 < total words)%Z.
Proof. intros H. unfold total. destruct words; [done|]. simpl. lia. Qed.

Lemma handleNext_nonempty words s :
  words ≠ [] →
  handleNext words s
  = setCurrentIndex
      (normalizeIndex (number_add (currentIndex s) (Int 1)) (Int (total words)))
      (setShowNextPopup false s).
Proof. intros H. unfold handleNext. by destruct words. Qed.

(** An index with a word at it is an integer within the dataset, and the
    other way round. *)
Lemma currentWord_Some words s cw :
  currentWord words s = Some cw →
  ∃ i, currentIndex s = Int i ∧ (0 <= i < total words)%Z
       ∧ words !! Z.to_nat i = Some cw.
Proof.
  unfold currentWord, total. destruct (currentIndex s) as [i| | |]; try done.
  destruct (Z.ltb_spec i 0); [done|]. intros Hcw. exists i.
  split; [done|]. split; [|done].
  apply lookup_lt_Some in Hcw. lia.
Qed.

Lemma currentWord_valid words s i :
  currentIndex s = Int i → (0 <= i < total words)%Z →
  is_Some (currentWord words s).
Proof.
  intros Hs Hi. unfold currentWord, total in *. rewrite Hs.
  destruct (Z.ltb_spec i 0); [lia|].
  apply lookup_lt_is_Some. lia.
Qed.

(** From an integer index [handleNext] moves to the next position, which
    has a word at it. *)
Lemma handleNext_index (words : list Word) (s : State) (i : Z) :
  (0 < total words)%Z →
  currentIndex s = Int i →
  currentIndex (handleNext words s) = Int ((i + 1) mod total words)
  ∧ (0 <= (i + 1) mod total words < total words)%Z
  ∧ is_Some (currentWord words (handleNext words s)).
Proof.
  intros Hn Hi.
  assert (Hw : words ≠ []) by (intros ->; unfold total in Hn; simpl in Hn; lia).
  assert (Hidx : currentIndex (handleNext words s)
                 = Int ((i + 1) mod total words)).
  { rewrite handleNext_nonempty by done. simpl. rewrite Hi. simpl.
    by apply normalizeIndex_mod. }
  assert (Hrange : (0 <= (i + 1) mod total words < total words)%Z)
    by (apply Z.mod_pos_bound; lia).
  split; [done|]. split; [done|]. by eapply currentWord_valid.
Qed.

(** C3.  On a dataset of [n > 0] words [handleNext] moves the index from
    [i] to [(i + 1) mod n], whatever integer [i] is; from [n - 1] it moves
    to [0]; the result is a valid index, with a word at it; and the
    wrapped value is computed as [((x % n) + n) % n]. *)
Theorem next_wraps (words : list Word) (s : State) (i : Z) :
  (0 < total words)%Z →
  currentIndex s = Int i →
  currentIndex (handleNext words s) = Int ((i + 1) mod total words)
  ∧ (i = (total words - 1)%Z → currentIndex (handleNext words s) = Int 0)
  ∧ (0 <= (i + 1) mod total words < total words)%Z
  ∧ is_Some (currentWord words (handleNext words s))
  ∧ (∀ x : Z, normalizeIndex (Int x) (Int (total words))
              = Int (Z.rem (Z.rem x (total words) + total words) (total words))).
Proof.
  intros Hn Hi.
  destruct (handleNext_index words s i Hn Hi) as (Hidx & Hrange & Hsome).
  split; [done|]. split; [|split; [done|split; [done|]]].
  - intros ->. rewrite Hidx. f_equal.
    replace (total words - 1 + 1)%Z with (total words) by lia.
    apply Z.mod_same. lia.
  - intros x. apply normalizeIndex_int. lia.
Qed.

Lemma next_wraps_witness :
  (0 < total [hund; katze])%Z
  ∧ currentIndex (handleNext [hund; katze]
                    (setCurrentIndex (Int 1) (initialState [hund; katze])))
    = Int 0.
Proof.
  assert (Hn : (0 < total [hund; katze])%Z) by (vm_compute; reflexivity).
  split; [exact Hn|].
  exact (proj1 (proj2 (next_wraps [hund; katze]
           (setCurrentIndex (Int 1) (initialState [hund; katze])) 1 Hn eq_refl))
           eq_refl).
Defined.

Lemma append_empty_r (t : string) : String.append t EmptyString = t.
Proof.
  induction t as [|c t IH]; [done|].
  change (String c (String.append t EmptyString) = String c t). by rewrite IH.
Qed.

Lemma length_zero_empty (t : string) : String.length t = 0 ↔ t = EmptyString.
Proof. destruct t; simpl; split; intros; congruence. Qed.

(** What [handleCheck] does, branch by branch, for any render [r] its
    closure may hold and any latest state [s]. *)
Lemma handleCheck_locked r s : r_isLocked r = true → handleCheck r s = s.
Proof. intros H. unfold handleCheck. by rewrite H. Qed.

Lemma handleCheck_match r s :
  r_isLocked r = false →
  join (r_userInput r) = word (r_currentWord r) →
  word (r_currentWord r) ≠ EmptyString →
  handleCheck r s
  = setShowNextPopup true
      (playSound successSound
         (setFeedback {| message := "Richtig!"; tone := tone_success |}
            (setStatus status_success (setIsLocked true s)))).
Proof.
  intros Hl Heq Hne. unfold handleCheck. rewrite Hl, Heq.
  destruct (Nat.eqb_spec (String.length (word (r_currentWord r))) 0) as [E|_].
  { by apply length_zero_empty in E. }
  rewrite Nat.eqb_refl. simpl. by rewrite String.eqb_refl.
Qed.

Lemma handleCheck_mismatch r s :
  r_isLocked r = false →
  String.length (join (r_userInput r)) = String.length (word (r_currentWord r)) →
  join (r_userInput r) ≠ word (r_currentWord r) →
  handleCheck r s
  = setMistakes
      (<[id (r_currentWord r) :=
           plusOne (getProperty (mistakes s) (id (r_currentWord r)))]> (mistakes s))
      (triggerShake
         (setStatus status_error
            (setFeedback
               {| message := "Noch nicht ganz richtig. " ++ hintText (r_currentWord r);
                  tone := tone_error |}
               (playSound errorSound s)))).
Proof.
  intros Hl Hlen Hne. unfold handleCheck. rewrite Hl.
  destruct (Nat.eqb_spec (String.length (join (r_userInput r))) 0) as [E|_].
  { apply length_zero_empty in E. rewrite E in Hlen, Hne. simpl in Hlen.
    symmetry in Hlen. apply length_zero_empty in Hlen. congruence. }
  rewrite Hlen, Nat.eqb_refl. simpl.
  by destruct (String.eqb_spec (join (r_userInput r)) (word (r_currentWord r))).
Qed.

Lemma handleCheck_wrong_length r s :
  r_isLocked r = false →
  join (r_userInput r) ≠ EmptyString →
  String.length (join (r_userInput r)) ≠ String.length (word (r_currentWord r)) →
  handleCheck r s
  = triggerShake
      (setStatus status_error
         (setFeedback
            {| message :=
                 lengthMessage
                   (Z.of_nat (String.length (word (r_currentWord r)))
                    - Z.of_nat (String.length (join (r_userInput r))));
               tone := tone_error |}
            (playSound errorSound s))).
Proof.
  intros Hl Hne Hlen. unfold handleCheck. rewrite Hl.
  destruct (Nat.eqb_spec (String.length (join (r_userInput r))) 0) as [E|_].
  { by apply length_zero_empty in E. }
  by destruct (Nat.eqb_spec (String.length (join (r_userInput r)))
                 (String.length (word (r_currentWord r)))).
Qed.

Lemma handleCheck_empty r s :
  r_isLocked r = false → join (r_userInput r) = EmptyString →
  handleCheck r s
  = triggerShake
      (setStatus status_error
         (setFeedback {| message := "Fang mit einem Buchstaben an!";
                         tone := tone_error |}
            (playSound errorSound s))).
Proof. intros Hl He. unfold handleCheck. by rewrite Hl, He. Qed.

(** What the counter of a word becomes when a mistake is counted: one
    more than a number it held, and 1 where the record neither has nor
    inherits a property of that name. *)
Lemma plusOne_counts (m : gmap string Value) (key : string) :
  (∀ c, m !! key = Some (VNumber (Int c)) →
        plusOne (getProperty m key) = VNumber (Int (c + 1)))
  ∧ (m !! key = None → key ∉ objectPrototype →
     plusOne (getProperty m key) = VNumber (Int 1))
  ∧ (m !! key = None → key ∈ objectPrototype →
     ∃ text, plusOne (getProperty m key) = VString text
             ∨ plusOne (getProperty m key) = VSource key text).
Proof.
  unfold getProperty. split; [|split].
  - by intros c ->.
  - intros -> Hk. by rewrite bool_decide_eq_false_2.
  - intros -> Hk. rewrite bool_decide_eq_true_2 by done. simpl.
    destruct (String.eqb key "__proto__"); eexists; [by left|by right].
Qed.

(** ** The loading effect *)

Lemma loadEffect_record (words : list Word) sto i m x s0 :
  words ≠ [] → available sto = true →
  item sto = Some (JsonText (ParsedRecord i m)) →
  indexOperand i = Some x →
  loadEffect words sto s0
  = setProgressLoaded true
      (setMistakes (default ∅ m)
         (setCurrentIndex (normalizeIndex x (Int (total words))) s0)).
Proof.
  intros Hw Hav Hit Hx. unfold loadEffect, loadBody, getItem.
  destruct words as [|w0 ws]; [done|]. simpl.
  rewrite Hav, Hit. simpl. by rewrite Hx.
Qed.

Lemma loadEffect_unusable (words : list Word) sto s0 :
  words ≠ [] → unusable sto →
  loadEffect words sto s0 = setProgressLoaded true s0.
Proof.
  intros Hw Hun. unfold loadEffect, loadBody, getItem.
  destruct words as [|w0 ws]; [done|]. simpl.
  destruct (available sto) eqn:Hav; [|done].
  destruct Hun as [H|[H|[H|[H|[H|[m H]]]]]]; [congruence|by rewrite H..].
Qed.

(** ** The page between events *)

Lemma keepsPage_refl s : keepsPage s s.
Proof. by repeat split. Qed.

Lemma attemptStep_refl letter s : attemptStep letter s s.
Proof. left. exists (length (userInput s)). by rewrite firstn_all. Qed.

Lemma handleLetterClick_keeps r letter s : keepsPage s (handleLetterClick r letter s).
Proof.
  unfold handleLetterClick. repeat case_match; by repeat split.
Qed.

Lemma handleLetterClick_attempt r letter s :
  userInput (handleLetterClick r letter s) = userInput s
  ∨ (r_isLocked r = false
     ∧ length (r_userInput r) < String.length (word (r_currentWord r))
     ∧ userInput (handleLetterClick r letter s) = userInput s ++ [letter]).
Proof.
  unfold handleLetterClick.
  destruct (r_isLocked r); [by left|].
  destruct (Nat.leb_spec (String.length (word (r_currentWord r)))
              (length (r_userInput r))); [by left|by right].
Qed.

Lemma handleBackspace_keeps r s : keepsPage s (handleBackspace r s).
Proof. unfold handleBackspace. repeat case_match; by repeat split. Qed.

Lemma handleBackspace_attempt r letter s :
  attemptStep letter s (handleBackspace r s).
Proof.
  unfold handleBackspace. case_match; [apply attemptStep_refl|].
  left. by eexists.
Qed.

Lemma handleClear_keeps r s : keepsPage s (handleClear r s).
Proof. unfold handleClear. repeat case_match; by repeat split. Qed.

Lemma handleClear_attempt r letter s : attemptStep letter s (handleClear r s).
Proof.
  unfold handleClear. case_match; [apply attemptStep_refl|].
  left. by exists 0.
Qed.

Lemma handleCheck_keeps r s : keepsPage s (handleCheck r s).
Proof. unfold handleCheck. repeat case_match; by repeat split. Qed.

Lemma handleCheck_attempt r s : userInput (handleCheck r s) = userInput s.
Proof. unfold handleCheck. by repeat case_match. Qed.

Lemma handleAnimationEnd_keeps s : keepsPage s (handleAnimationEnd s).
Proof. unfold handleAnimationEnd. repeat case_match; by repeat split. Qed.

Lemma handleKeydown_keeps r key s : keepsPage s (handleKeydown r key s).
Proof.
  unfold handleKeydown. repeat case_match;
    auto using handleBackspace_keeps, handleCheck_keeps, handleClear_keeps,
      handleLetterClick_keeps, keepsPage_refl.
Qed.

(** A key press leaves a prefix of the attempt, or puts the lowercase form
    of the key behind it; the latter only for a one-unit key whose
    lowercase form is in the set of the listener's word. *)
Lemma handleKeydown_attempt r key s :
  (∃ k, userInput (handleKeydown r key s) = take k (userInput s))
  ∨ (userInput (handleKeydown r key s) = userInput s ++ [toLowerCase key]
     ∧ String.length (toLowerCase key) = 1
     ∧ toLowerCase key ∈ allowedLetters (r_currentWord r)).
Proof.
  assert (Hrefl : ∀ s0 : State, ∃ k, userInput s0 = take k (userInput s0)).
  { intros s0. exists (length (userInput s0)). by rewrite firstn_all. }
  unfold handleKeydown.
  destruct (String.eqb key "Backspace").
  { left. destruct (handleBackspace_attempt r None s) as [H|(a & ? & _)]; done. }
  destruct (String.eqb key "Enter").
  { left. rewrite handleCheck_attempt. apply Hrefl. }
  destruct (String.eqb key "Escape").
  { left. destruct (handleClear_attempt r None s) as [H|(a & ? & _)]; done. }
  destruct (Nat.eqb_spec (String.length (toLowerCase key)) 1) as [Hlen|_];
    [|left; apply Hrefl].
  simpl. case_bool_decide as Hin; [|left; apply Hrefl].
  destruct (handleLetterClick_attempt r (toLowerCase key) s) as [->|(_ & _ & ->)];
    [left; apply Hrefl | by right].
Qed.

Lemma currentWord_same_index words s s' :
  currentIndex s' = currentIndex s → currentWord words s' = currentWord words s.
Proof. intros H. unfold currentWord. by rewrite H. Qed.

Lemma wordChanged_false words prev next :
  wordChanged words prev next = false →
  currentWord words next = currentWord words prev.
Proof.
  unfold wordChanged.
  destruct (currentWord words prev) eqn:Hp, (currentWord words next) eqn:Hn;
    try done.
  intros H. apply negb_false_iff, bool_decide_eq_true in H.
  rewrite <- Hp, <- Hn. symmetry. by apply currentWord_same_index.
Qed.

Lemma wordChanged_same_index words prev next :
  currentIndex next = currentIndex prev → wordChanged words prev next = false.
Proof.
  intros H. unfold wordChanged.
  rewrite (currentWord_same_index words prev next H), H.
  destruct (currentWord words prev); [|done].
  by rewrite bool_decide_eq_true_2.
Qed.

Lemma progressChanged_false prev next :
  progressChanged prev next = false →
  currentIndex next = currentIndex prev ∧ mistakes next = mistakes prev
  ∧ progressLoaded next = progressLoaded prev.
Proof.
  unfold progressChanged. intros H.
  apply orb_false_iff in H as [H H3]. apply orb_false_iff in H as [H1 H2].
  apply negb_false_iff in H1, H2, H3.
  apply bool_decide_eq_true in H1. apply bool_decide_eq_true in H2.
  apply Bool.eqb_prop in H3. done.
Qed.

(** Every event but a click on the shown next-button runs a handler that
    keeps the page; that click runs [handleNext]. *)
Lemma dispatch_cases words e w :
  keepsPage (st w) (dispatch words e w)
  ∨ (e = ClickNext ∧ showNextPopup (st w) = true
     ∧ is_Some (currentWord words (st w))
     ∧ dispatch words e w = handleNext words (st w)).
Proof.
  unfold dispatch, render_of.
  destruct e; try (destruct (listener w); left;
                   auto using handleKeydown_keeps, keepsPage_refl; fail).
  all: destruct (currentWord words (st w)) as [cw|] eqn:Hcw; simpl;
    try (left; apply keepsPage_refl).
  - left. case_match; auto using handleLetterClick_keeps, keepsPage_refl.
  - left. apply handleBackspace_keeps.
  - left. apply handleCheck_keeps.
  - left. apply handleClear_keeps.
  - destruct (showNextPopup (st w)) eqn:Hp; [|left; apply keepsPage_refl].
    right. by repeat split.
  - left. apply handleAnimationEnd_keeps.
  - left. unfold handleAudioClick. repeat case_match; by repeat split.
  - left. by repeat split.
  - left. by repeat split.
  - left. by repeat split.
  - left. by repeat split.
Qed.

(** What an event does to the attempt: it leaves a prefix, or it appends
    the clicked tile, or it appends the lowercase form of the pressed key,
    which is then in the set of the listener's word. *)
Lemma dispatch_attempt words e w :
  (∃ k, userInput (dispatch words e w) = take k (userInput (st w)))
  ∨ (∃ a, userInput (dispatch words e w) = userInput (st w) ++ [a]
       ∧ ((∃ i, e = ClickTile i ∧ shuffledLetters (st w) !! i = Some a)
          ∨ (∃ key lr, e = KeyDown key ∧ listener w = Some lr
               ∧ a = toLowerCase key
               ∧ a ∈ allowedLetters (r_currentWord lr)))).
Proof.
  assert (Hrefl : ∀ s0 : State, ∃ k, userInput s0 = take k (userInput s0)).
  { intros s0. exists (length (userInput s0)). by rewrite firstn_all. }
  unfold dispatch, render_of.
  destruct e as [i| | | | |key| | | | | |].
  6:{ destruct (listener w) as [lr|] eqn:Hl; [|left; apply Hrefl].
      destruct (handleKeydown_attempt lr key (st w)) as [H|(H & _ & Hin)];
        [by left|].
      right. exists (toLowerCase key). split; [done|]. right. by exists key, lr. }
  all: destruct (currentWord words (st w)) as [cw|] eqn:Hcw; simpl;
    try (left; apply Hrefl).
  - destruct (shuffledLetters (st w) !! i) as [a|] eqn:Ha; [|left; apply Hrefl].
    destruct (handleLetterClick_attempt (renderAt (st w) cw) a (st w))
      as [->|(_ & _ & ->)]; [left; apply Hrefl|].
    right. exists a. split; [done|]. left. by exists i.
  - destruct (handleBackspace_attempt (renderAt (st w) cw) None (st w))
      as [H|(a & ? & _)]; [by left|done].
  - left. rewrite handleCheck_attempt. apply Hrefl.
  - destruct (handleClear_attempt (renderAt (st w) cw) None (st w))
      as [H|(a & ? & _)]; [by left|done].
  - left. destruct (showNextPopup (st w)); [|apply Hrefl].
    unfold handleNext. case_match; [apply Hrefl|].
    apply (Hrefl (setCurrentIndex _ (setShowNextPopup false (st w)))).
  - left. unfold handleAnimationEnd. case_match; [|apply Hrefl].
    apply (Hrefl (setShake false (st w))).
  - left. unfold handleAudioClick. repeat case_match; try apply Hrefl.
    apply (Hrefl (setIsAudioBusy true (st w))).
Qed.

Lemma saveEffect_stored s sto :
  progressLoaded s = true → available (saveEffect s sto) = true →
  item (saveEffect s sto)
  = Some (JSON_stringify (currentIndex s) (mistakes s)).
Proof.
  intros Hpl. unfold saveEffect, setItem. rewrite Hpl.
  destruct (available sto) eqn:Hav; simpl; [done|]. congruence.
Qed.

(** Without a current word no event finds a handler that acts. *)
Lemma dispatch_frozen words e w :
  currentWord words (st w) = None → listener w = None →
  dispatch words e w = st w.
Proof.
  intros Hcw Hl. unfold dispatch, render_of. rewrite Hcw, Hl. by destruct e.
Qed.

(** The render after a state change restores consistency. *)
Lemma commit_consistent words rnd w next :
  (showNextPopup next = true → isLocked next = true) →
  (isLocked next = true → is_Some (currentWord words next)) →
  (words ≠ [] → progressLoaded next = true) →
  (wordChanged words (st w) next = false →
     (∀ lr, listener w = Some lr →
            currentWord words next = Some (r_currentWord lr))
     ∧ (∀ cw, currentWord words next = Some cw →
              shuffledLetters next ≡ₚ letters cw)
     ∧ drawnFromLetters words next) →
  (progressChanged (st w) next = false →
     words ≠ [] → available (storage w) = true →
     item (storage w)
     = Some (JSON_stringify (currentIndex next) (mistakes next))) →
  Consistent words (commit words rnd w next).
Proof.
  intros Hpop Hlw Hpl Hsame Hsto.
  set (sto := if progressChanged (st w) next
              then saveEffect next (storage w) else storage w).
  assert (Hstored : words ≠ [] → available sto = true →
            item sto = Some (JSON_stringify (currentIndex next) (mistakes next))).
  { intros Hw Hav. subst sto.
    destruct (progressChanged (st w) next) eqn:Hpc.
    - apply saveEffect_stored; auto.
    - auto. }
  unfold commit. fold sto.
  destruct (wordChanged words (st w) next) eqn:Hwc.
  - destruct (currentWord words next) as [cw|] eqn:Hcw; simpl.
    + split; simpl.
      * unfold render_of. rewrite Hcw. simpl. intros lr [= <-]. simpl.
        by rewrite <- Hcw.
      * intros cw'. unfold currentWord in *. simpl. rewrite Hcw.
        intros [= <-]. apply shuffleArray_Permutation.
      * intros cw' a _. simpl. by intros ?%elem_of_nil.
      * done.
      * done.
      * done.
      * done.
    + split; simpl.
      * unfold render_of. by rewrite Hcw.
      * intros cw'. unfold currentWord in *. simpl. by rewrite Hcw.
      * intros cw' a. unfold currentWord in *. simpl. by rewrite Hcw.
      * done.
      * intros Hl. destruct (Hlw Hl) as [? ?]. congruence.
      * done.
      * done.
  - destruct (Hsame eq_refl) as (Hl & Ht & Hd). by split.
Qed.

Lemma step_consistent words rnd e w :
  Consistent words w → Consistent words (step words rnd e w).
Proof.
  intros [Hl Ht Hd Hpop Hlw Hpl Hsto]. unfold step.
  destruct (dispatch_cases words e w)
    as [(Hi & Hs & Hp & Hk) | (-> & Hshow & [cw Hcw] & Hnext)].
  - (* a handler that keeps the page *)
    pose proof (currentWord_same_index words _ _ Hi) as Hcw.
    apply commit_consistent.
    + auto.
    + rewrite Hcw. intros Hlk.
      destruct (currentWord words (st w)) as [cw|] eqn:Hcur; [done|].
      apply Hlw. rewrite <- Hlk. f_equal. symmetry.
      apply dispatch_frozen; [done|].
      destruct (listener w) as [lr|] eqn:Hlr; [|done].
      by specialize (Hl lr eq_refl).
    + rewrite Hp. auto.
    + intros _. rewrite Hcw. split; [done|]. split.
      { intros cw Hc. rewrite Hs. auto. }
      unfold drawnFromLetters. rewrite Hcw.
      intros cw a Hc Ha.
      destruct (dispatch_attempt words e w) as [[k Hk']|(b & Hb & Hsrc)].
      * rewrite Hk' in Ha. eapply Hd; [done|].
        by apply (subseteq_take k (userInput (st w))).
      * rewrite Hb in Ha. apply elem_of_app in Ha as [Ha|Ha%list_elem_of_singleton].
        { by eapply Hd. }
        subst b. destruct Hsrc as [(i & _ & Hi')|(key & lr & _ & Hlr & _ & Hin)].
        -- left. rewrite <- (Ht cw Hc). by eapply list_elem_of_lookup_2.
        -- right. apply Hl in Hlr. rewrite Hc in Hlr. by injection Hlr as ->.
    + intros Hpc Hw Hav. apply progressChanged_false in Hpc as (-> & -> & _). auto.
  - (* the next-button *)
    rewrite Hnext.
    assert (Hw : words ≠ []).
    { intros ->. apply currentWord_Some in Hcw as (i & _ & Hi & _).
      unfold total in Hi. simpl in Hi. lia. }
    destruct (currentWord_Some words _ _ Hcw) as (i & Hidx & Hi & _).
    destruct (handleNext_index words (st w) i (total_pos words Hw) Hidx)
      as (_ & _ & Hsome).
    rewrite handleNext_nonempty in * by done.
    apply commit_consistent; simpl.
    + done.
    + done.
    + auto.
    + intros Hwc. apply wordChanged_false in Hwc. rewrite Hwc.
      split; [done|]. split; [done|].
      intros cw' a Hc Ha. simpl in Ha.
      unfold drawnFromLetters in Hd. eapply Hd; [|done].
      rewrite <- Hc, <- Hwc. done.
    + intros Hpc _ Hav. apply progressChanged_false in Hpc as (Hi' & Hm & _).
      simpl in Hi', Hm. rewrite Hi'. auto.
Qed.

Lemma loadEffect_cases words sto s0 :
  words ≠ [] →
  loadEffect words sto s0 = setProgressLoaded true s0
  ∨ ∃ x m, loadEffect words sto s0
           = setProgressLoaded true
               (setMistakes m
                  (setCurrentIndex (normalizeIndex x (Int (total words))) s0)).
Proof.
  intros Hw. unfold loadEffect, loadBody, getItem.
  destruct words as [|w0 ws]; [done|]. simpl.
  destruct (available sto); [|by left].
  destruct (item sto) as [[| |[|i m]]|]; simpl; try by left.
  destruct (indexOperand i); [|by left].
  right. by eexists _, _.
Qed.

Lemma mount_consistent words rnd1 rnd2 sto :
  Consistent words (mount words rnd1 rnd2 sto).
Proof.
  unfold mount.
  destruct (decide (words = [])) as [->|Hw].
  { by apply commit_consistent. }
  assert (Hcw0 : ∃ cw0, currentWord words (initialState words) = Some cw0
                        ∧ words !! 0 = Some cw0).
  { destruct words as [|w0 ws]; [done|]. by exists w0. }
  destruct Hcw0 as (cw0 & Hcw0 & Hfirst). rewrite Hcw0.
  set (loaded := loadEffect words sto (initialState words)).
  assert (Hloaded : progressLoaded loaded = true ∧ isLocked loaded = false).
  { subst loaded.
    destruct (loadEffect_cases words sto (initialState words) Hw)
      as [->|(x & m & ->)]; by simpl. }
  destruct Hloaded as [Hpl Hlk].
  apply commit_consistent; simpl; try done.
  - intros Hwc. apply wordChanged_false in Hwc. rewrite Hwc, Hcw0.
    split.
    { unfold render_of. rewrite Hcw0. simpl. by intros lr [= <-]. }
    split.
    { intros cw [= <-]. apply shuffleArray_Permutation. }
    intros cw a _. simpl. by intros ?%elem_of_nil.
  - intros Hpc. apply progressChanged_false in Hpc as (_ & _ & Hp).
    simpl in Hp. congruence.
Qed.

Lemma reachable_consistent words w : reachable words w → Consistent words w.
Proof.
  induction 1; [apply mount_consistent | by apply step_consistent].
Qed.

Lemma reachable_run words rnd es w :
  reachable words w → reachable words (run words rnd es w).
Proof.
  revert w. induction es as [|e es IH]; intros w Hw; simpl; [done|].
  apply IH. by constructor.
Qed.

Lemma progressChanged_same s : progressChanged s s = false.
Proof.
  unfold progressChanged.
  rewrite !bool_decide_eq_true_2, Bool.eqb_reflx by done. done.
Qed.

(** An event whose handler keeps the page shows its result as it is. *)
Lemma step_keeps words rnd e w :
  keepsPage (st w) (dispatch words e w) →
  st (step words rnd e w) = dispatch words e w
  ∧ listener (step words rnd e w) = listener w.
Proof.
  intros (Hi & _). unfold step, commit.
  by rewrite (wordChanged_same_index words _ _ Hi).
Qed.

Lemma commit_same words rnd w : commit words rnd w (st w) = w.
Proof.
  unfold commit.
  rewrite progressChanged_same, wordChanged_same_index by done.
  by destruct w.
Qed.

Lemma lower_unit_idemp c : lower_unit (lower_unit c) = lower_unit c.
Proof. destruct c as [[] [] [] [] [] [] [] []]; reflexivity. Qed.

Lemma toLowerCase_idemp t : toLowerCase (toLowerCase t) = toLowerCase t.
Proof.
  induction t as [|c t IH]; simpl; [done|]. by rewrite lower_unit_idemp, IH.
Qed.

Lemma elem_of_allowedLetters cw k :
  k ∈ allowedLetters cw ↔ ∃ l, l ∈ letters cw ∧ k = toLowerCase l.
Proof.
  unfold allowedLetters. rewrite elem_of_list_to_set, list_elem_of_fmap.
  split; intros (l & H1 & H2); by exists l.
Qed.

Lemma step_not_next words rnd e w :
  e ≠ ClickNext →
  listener (step words rnd e w) = listener w
  ∧ currentIndex (st (step words rnd e w)) = currentIndex (st w)
  ∧ st (step words rnd e w) = dispatch words e w.
Proof.
  intros He.
  destruct (dispatch_cases words e w) as [Hk|(? & _)]; [|done].
  destruct (step_keeps words rnd e w Hk) as [Hs Hl].
  rewrite Hs. by destruct Hk as (? & _).
Qed.

Lemma commit_progress words rnd w next :
  currentIndex (st (commit words rnd w next)) = currentIndex next
  ∧ mistakes (st (commit words rnd w next)) = mistakes next.
Proof.
  unfold commit. destruct (wordChanged words (st w) next); [|done].
  by destruct (currentWord words next).
Qed.

(** An event that changes neither the index, nor the mistake record, nor
    the loaded flag leaves the listener and the storage as they are. *)
Lemma step_same_progress words rnd e w :
  currentIndex (dispatch words e w) = currentIndex (st w) →
  mistakes (dispatch words e w) = mistakes (st w) →
  progressLoaded (dispatch words e w) = progressLoaded (st w) →
  step words rnd e w
  = {| st := dispatch words e w; listener := listener w; storage := storage w |}.
Proof.
  intros Hi Hm Hp. unfold step, commit.
  rewrite (wordChanged_same_index words _ _ Hi).
  unfold progressChanged. rewrite Hi, Hm, Hp.
  by rewrite !bool_decide_eq_true_2, Bool.eqb_reflx by done.
Qed.

(** ** The check button *)

(** C1, as amended.  With a current word whose target spelling is not
    empty: a click on the check button, in a session that is not locked
    and whose joined attempt is exactly the target, locks the session,
    sets the success status and the success feedback, plays the success
    sound, shows the popup, and leaves the mistake record, the attempt and
    the index as they are. *)
Theorem check_exact_match_locks
    (words : list Word) (w : World) (cw : Word) (rnd : nat → nat) :
  currentWord words (st w) = Some cw →
  isLocked (st w) = false →
  join (userInput (st w)) = word cw →
  word cw ≠ EmptyString →
  let s' := st (step words rnd ClickCheck w) in
  isLocked s' = true
  ∧ status s' = status_success
  ∧ feedback s' = {| message := "Richtig!"; tone := tone_success |}
  ∧ showNextPopup s' = true
  ∧ played s' = played (st w) ++ [successSound]
  ∧ mistakes s' = mistakes (st w)
  ∧ userInput s' = userInput (st w)
  ∧ currentIndex s' = currentIndex (st w).
Proof.
  intros Hcw Hl Heq Hne s'. subst s'.
  destruct (step_not_next words rnd ClickCheck w) as (_ & _ & ->); [done|].
  unfold dispatch, render_of. rewrite Hcw. simpl.
  rewrite handleCheck_match by done. by repeat split.
Qed.

Lemma check_exact_match_locks_witness :
  let w := run [hund] sameCell (clicks [0; 1; 2; 3])
             (mount [hund] sameCell sameCell freshStorage) in
  isLocked (st (step [hund] sameCell ClickCheck w)) = true
  ∧ mistakes (st (step [hund] sameCell ClickCheck w)) = mistakes (st w).
Proof.
  intros w.
  destruct (check_exact_match_locks [hund] w hund sameCell)
    as (H1 & _ & _ & _ & _ & H6 & _).
  - reflexivity.
  - reflexivity.
  - reflexivity.
  - discriminate.
  - split; [exact H1 | exact H6].
Defined.

(** C1, as stated, fails on a word whose spelling is empty: the attempt
    [[]] joins to the target, the session is not locked, and the check
    answers that a letter is needed and does not lock. *)
Lemma check_blank_target_not_locked :
  let w := mount [blank] sameCell sameCell freshStorage in
  currentWord [blank] (st w) = Some blank
  ∧ isLocked (st w) = false
  ∧ join (userInput (st w)) = word blank
  ∧ st (step [blank] sameCell ClickCheck w)
    = handleCheck (renderAt (st w) blank) (st w)
  ∧ isLocked (handleCheck (renderAt (st w) blank) (st w)) = false
  ∧ feedback (handleCheck (renderAt (st w) blank) (st w))
    = {| message := "Fang mit einem Buchstaben an!"; tone := tone_error |}.
Proof. vm_compute. by repeat split. Qed.

(** C2 fails when the check is invoked by the Enter key.  The listener
    of [keydown] is the one of the render in which the word last changed:
    its [handleCheck] reads the attempt of that render, which is empty.
    With the four tiles of [hund] clicked in a wrong order, the Enter key
    counts no mistake and asks for a letter; the check button, on the
    same state, counts one. *)
Theorem enter_check_counts_no_mistake :
  let w := run [hund] sameCell (clicks [3; 2; 1; 0])
             (mount [hund] sameCell sameCell freshStorage) in
  reachable [hund] w
  ∧ currentWord [hund] (st w) = Some hund
  ∧ isLocked (st w) = false
  ∧ join (userInput (st w)) = "dnuh"
  ∧ String.length (join (userInput (st w))) = String.length (word hund)
  ∧ join (userInput (st w)) ≠ word hund
  ∧ mistakes (st w) = ∅
  ∧ mistakes (st (step [hund] sameCell (KeyDown "Enter") w)) = ∅
  ∧ message (feedback (st (step [hund] sameCell (KeyDown "Enter") w)))
    = "Fang mit einem Buchstaben an!"
  ∧ mistakes (st (step [hund] sameCell ClickCheck w))
    = {[ "w1" := VNumber (Int 1) ]}.
Proof.
  intros w. split; [apply reachable_run; constructor|].
  by vm_compute.
Qed.

(** C2 also fails, by the check button, on a word whose id names a member
    that the mistake record inherits: [prev[id]] is then the inherited
    function, [??] keeps it, and [+ 1] makes a string of it. *)
Example inherited_id_counter_is_text :
  let w := run [inheritedId] sameCell (clicks [3; 2; 1; 0])
             (mount [inheritedId] sameCell sameCell freshStorage) in
  mistakes (st w) = ∅
  ∧ mistakes (st (step [inheritedId] sameCell ClickCheck w))
    = {[ "constructor" := VSource "constructor" "1" ]}
  ∧ mistakes (st (run [inheritedId] sameCell [ClickCheck; ClickCheck] w))
    = {[ "constructor" := VSource "constructor" "11" ]}.
Proof. by vm_compute. Qed.

(** C7 fails when the check is invoked by the Enter key, for the reason
    given at C2: with the one tile [h] of [hund] clicked, the Enter key
    checks the empty attempt of the first render and asks for a letter,
    where three letters are missing; the check button, on the same state,
    reports the three. *)
Theorem enter_check_misreports_length :
  let w := run [hund] sameCell (clicks [0])
             (mount [hund] sameCell sameCell freshStorage) in
  reachable [hund] w
  ∧ currentWord [hund] (st w) = Some hund
  ∧ isLocked (st w) = false
  ∧ join (userInput (st w)) = "h"
  ∧ String.length (join (userInput (st w))) ≠ String.length (word hund)
  ∧ message (feedback (st (step [hund] sameCell (KeyDown "Enter") w)))
    = "Fang mit einem Buchstaben an!"
  ∧ message (feedback (st (step [hund] sameCell (KeyDown "Enter") w)))
    ≠ "Dir fehlen noch 3 Buchstaben."
  ∧ message (feedback (st (step [hund] sameCell ClickCheck w)))
    = "Dir fehlen noch 3 Buchstaben.".
Proof.
  intros w. split; [apply reachable_run; constructor|].
  by vm_compute.
Qed.

(** ** Typed letters *)

(** C6 fails for a letter that is typed.  The listener of [keydown] is
    the one of the render in which the word last changed, and its
    [handleLetterClick] reads the lock and the attempt of that render:
    after mounting, not locked and empty.  With the four tiles of [hund]
    clicked, the key [h] appends a fifth letter and raises no shake cue,
    where a click on the tile [h] leaves the attempt and raises it; and
    after the check button has locked the session the key still appends. *)
Theorem typed_letter_exceeds_length :
  let w := run [hund] sameCell (clicks [0; 1; 2; 3])
             (mount [hund] sameCell sameCell freshStorage) in
  let locked := step [hund] sameCell ClickCheck w in
  reachable [hund] w
  ∧ currentWord [hund] (st w) = Some hund
  ∧ isLocked (st w) = false
  ∧ length (userInput (st w)) = String.length (word hund)
  ∧ userInput (st (step [hund] sameCell (KeyDown "h") w))
    = ["h"; "u"; "n"; "d"; "h"]
  ∧ shake (st (step [hund] sameCell (KeyDown "h") w)) = false
  ∧ userInput (st (step [hund] sameCell (ClickTile 0) w)) = ["h"; "u"; "n"; "d"]
  ∧ shake (st (step [hund] sameCell (ClickTile 0) w)) = true
  ∧ isLocked (st locked) = true
  ∧ userInput (st (step [hund] sameCell (KeyDown "h") locked))
    = ["h"; "u"; "n"; "d"; "h"].
Proof.
  intros w locked. split; [apply reachable_run; constructor|].
  by vm_compute.
Qed.

(** ** The attempt and the letters of the word *)

(** C5, as amended.  After the page has mounted and after any sequence of
    events, every letter of the attempt is one of the current word's
    letters as written (a clicked tile) or the lowercase form of one (a
    pressed key); in both cases its lowercase form is among the lowercase
    forms of the word's letters.  How often a letter occurs is not
    bounded by the letters list. *)
Theorem attempt_drawn_from_letters
    (words : list Word) (w : World) (cw : Word) (a : string) :
  reachable words w →
  currentWord words (st w) = Some cw →
  a ∈ userInput (st w) →
  (a ∈ letters cw ∨ a ∈ allowedLetters cw)
  ∧ toLowerCase a ∈ allowedLetters cw.
Proof.
  intros Hr Hcw Ha.
  destruct (attempt_drawn words w (reachable_consistent words w Hr) cw a Hcw Ha)
    as [Hin|Hin].
  - split; [by left|]. apply elem_of_allowedLetters. by exists a.
  - split; [by right|].
    apply elem_of_allowedLetters in Hin as (l & Hl & ->).
    rewrite toLowerCase_idemp. apply elem_of_allowedLetters. by exists l.
Qed.

Lemma attempt_drawn_from_letters_witness :
  let w := run [Haus] sameCell [ClickTile 0; KeyDown "A"]
             (mount [Haus] sameCell sameCell freshStorage) in
  ("a" ∈ letters Haus ∨ "a" ∈ allowedLetters Haus)
  ∧ toLowerCase "a" ∈ allowedLetters Haus.
Proof.
  intros w.
  apply (attempt_drawn_from_letters [Haus] w Haus "a").
  - apply reachable_run. constructor.
  - reflexivity.
  - vm_compute. apply list_elem_of_In. right. left. reflexivity.
Defined.

(** C5, as stated, fails: a tile stays in place after a click, so the
    same tile can be clicked again; after two clicks on the tile [h] of
    [hund] the attempt holds [h] twice, the letters list once. *)
Lemma same_tile_twice_exceeds_multiset :
  let w := run [hund] sameCell (clicks [0; 0])
             (mount [hund] sameCell sameCell freshStorage) in
  reachable [hund] w
  ∧ currentWord [hund] (st w) = Some hund
  ∧ userInput (st w) = ["h"; "h"]
  ∧ count_occ string_dec (userInput (st w)) "h" = 2
  ∧ count_occ string_dec (letters hund) "h" = 1
  ∧ ¬ withinLetterMultiset hund (userInput (st w)).
Proof.
  intros w. split; [apply reachable_run; constructor|].
  do 4 (split; [by vm_compute|]).
  intros H. specialize (H "h"). vm_compute in H. lia.
Qed.

(** ** The next-button and the lock *)

(** C8.  In every state the page can reach in which the session is not
    locked, the popup that holds the next-button is not shown, and the
    advance changes nothing: not the index, not any other part of the
    state, not the listener, not the storage.  Nor does any other event
    move the index while the session is not locked. *)
Theorem next_button_needs_lock (words : list Word) (w : World) :
  reachable words w →
  isLocked (st w) = false →
  showNextPopup (st w) = false
  ∧ (∀ rnd, step words rnd ClickNext w = w)
  ∧ (∀ rnd e, currentIndex (st (step words rnd e w)) = currentIndex (st w)).
Proof.
  intros Hr Hl.
  pose proof (popup_locked words w (reachable_consistent words w Hr)) as Hp.
  assert (Hshow : showNextPopup (st w) = false).
  { destruct (showNextPopup (st w)); [|done]. rewrite Hp in Hl; done. }
  split; [done|]. split.
  - intros rnd. unfold step.
    assert (Hd : dispatch words ClickNext w = st w).
    { unfold dispatch. destruct (render_of words (st w)); [|done].
      by rewrite Hshow. }
    rewrite Hd. apply commit_same.
  - intros rnd e. unfold step.
    destruct (commit_progress words rnd w (dispatch words e w)) as [-> _].
    destruct (dispatch_cases words e w) as [(Hi & _)|(_ & Hpop & _)]; [done|].
    congruence.
Qed.

Lemma next_button_needs_lock_witness :
  let w := run [hund; katze] sameCell (clicks [0; 1])
             (mount [hund; katze] sameCell sameCell freshStorage) in
  showNextPopup (st w) = false
  ∧ ∀ rnd, step [hund; katze] rnd ClickNext w = w.
Proof.
  intros w.
  destruct (next_button_needs_lock [hund; katze] w) as (H1 & H2 & _).
  - apply reachable_run. constructor.
  - reflexivity.
  - split; [exact H1 | exact H2].
Defined.

(** [handleNext] itself has no test of the lock; what keeps it from a
    session that is not locked is that its button is rendered under
    [showNextPopup] only. *)
Example handleNext_reads_no_lock :
  let s := st (mount [hund; katze] sameCell sameCell freshStorage) in
  isLocked s = false
  ∧ showNextPopup s = false
  ∧ currentIndex (handleNext [hund; katze] s) = Int 1.
Proof. by vm_compute. Qed.

(** ** The tiles *)

(** C9, as amended.  In every state the page can reach the tiles are a
    rearrangement of the current word's letters.  When an event changes
    the current word, the tiles become [shuffleArray] of the new word's
    letters under the draws of that moment.  Nothing compares the result
    with the target spelling. *)
Theorem tiles_reshuffled_on_word_change (words : list Word) (w : World) :
  reachable words w →
  (∀ cw, currentWord words (st w) = Some cw →
         shuffledLetters (st w) ≡ₚ letters cw)
  ∧ (∀ rnd e cw,
       wordChanged words (st w) (dispatch words e w) = true →
       currentWord words (dispatch words e w) = Some cw →
       currentWord words (st (step words rnd e w)) = Some cw
       ∧ shuffledLetters (st (step words rnd e w))
         = shuffleArray rnd (letters cw)).
Proof.
  intros Hr. split.
  - apply (tiles_permuted words w (reachable_consistent words w Hr)).
  - intros rnd e cw Hwc Hcw. unfold step, commit. rewrite Hwc, Hcw. simpl.
    split; [|done]. rewrite <- Hcw. by apply currentWord_same_index.
Qed.

Lemma tiles_reshuffled_on_word_change_witness :
  let w := run [hund; katze] sameCell (clicks [0; 1; 2; 3] ++ [ClickCheck])
             (mount [hund; katze] sameCell sameCell freshStorage) in
  shuffledLetters (st (step [hund; katze] firstCell ClickNext w))
  = ["a"; "t"; "z"; "e"; "k"].
Proof.
  intros w.
  assert (Hr : reachable [hund; katze] w) by (apply reachable_run; constructor).
  destruct (tiles_reshuffled_on_word_change [hund; katze] w Hr) as [_ H].
  destruct (H firstCell ClickNext katze) as [_ ->]; reflexivity.
Defined.

(** C9, as stated, fails: when every draw lands on the cell itself the
    shuffle returns the letters in their order, and the tiles of [hund]
    spell the target. *)
Lemma shuffle_can_spell_target :
  let w := mount [hund] sameCell sameCell freshStorage in
  currentWord [hund] (st w) = Some hund
  ∧ (∀ i, sameCell i ≤ i)
  ∧ shuffleArray sameCell (letters hund) = ["h"; "u"; "n"; "d"]
  ∧ shuffledLetters (st w) = ["h"; "u"; "n"; "d"]
  ∧ join (shuffledLetters (st w)) = word hund.
Proof. by repeat split. Qed.

(** ** Keys and tiles *)

(** C10.  In every state the page can reach, with a current word:
    - a key press leaves a prefix of the attempt, or puts the lowercase
      form of the key behind the attempt; the latter only when that form
      is one code unit long and belongs to the set of lowercase forms of
      the current word's letters;
    - a click on a tile leaves the attempt, or puts behind it the string
      of that tile, which is one of the word's letters as written. *)
Theorem key_press_lowercased (words : list Word) (w : World) (cw : Word) :
  reachable words w →
  currentWord words (st w) = Some cw →
  ∀ rnd,
    (∀ key,
       let s' := st (step words rnd (KeyDown key) w) in
       (∃ k, userInput s' = take k (userInput (st w)))
       ∨ (userInput s' = userInput (st w) ++ [toLowerCase key]
          ∧ String.length (toLowerCase key) = 1
          ∧ toLowerCase key ∈ allowedLetters cw
          ∧ ∃ l, l ∈ letters cw ∧ toLowerCase key = toLowerCase l))
    ∧ (∀ i,
         let s' := st (step words rnd (ClickTile i) w) in
         userInput s' = userInput (st w)
         ∨ ∃ t, shuffledLetters (st w) !! i = Some t ∧ t ∈ letters cw
                ∧ userInput s' = userInput (st w) ++ [t]).
Proof.
  intros Hr Hcw rnd.
  pose proof (reachable_consistent words w Hr) as [Hl Ht _ _ _ _ _].
  split.
  - intros key s'. subst s'.
    destruct (step_keeps words rnd (KeyDown key) w) as [-> _].
    { destruct (dispatch_cases words (KeyDown key) w) as [H|(? & _)]; done. }
    unfold dispatch. destruct (listener w) as [lr|] eqn:Hlr.
    + destruct (handleKeydown_attempt lr key (st w)) as [H|(H & Hlen & Hin)];
        [by left|].
      right. specialize (Hl lr eq_refl). rewrite Hcw in Hl. injection Hl as ->.
      do 3 (split; [done|]). by apply elem_of_allowedLetters.
    + left. exists (length (userInput (st w))). by rewrite firstn_all.
  - intros i s'. subst s'.
    destruct (step_keeps words rnd (ClickTile i) w) as [-> _].
    { destruct (dispatch_cases words (ClickTile i) w) as [H|(? & _)]; done. }
    unfold dispatch, render_of. rewrite Hcw. simpl.
    destruct (shuffledLetters (st w) !! i) as [t|] eqn:Hti; [|by left].
    destruct (handleLetterClick_attempt (renderAt (st w) cw) t (st w))
      as [H|(_ & _ & H)]; [by left|].
    right. exists t. split; [done|]. split; [|done].
    rewrite <- (Ht cw Hcw). by eapply list_elem_of_lookup_2.
Qed.

Lemma key_press_lowercased_witness :
  let w := mount [Haus] sameCell sameCell freshStorage in
  userInput (st (step [Haus] sameCell (KeyDown "H") w)) = ["h"]
  ∧ userInput (st (step [Haus] sameCell (ClickTile 0) w)) = ["H"].
Proof.
  intros w.
  assert (Hr : reachable [Haus] w) by constructor.
  destruct (key_press_lowercased [Haus] w Haus Hr eq_refl sameCell)
    as [Hkey Htile].
  split.
  - destruct (Hkey "H") as [[k Hk]|(Happ & _)]; [|exact Happ].
    vm_compute in Hk. destruct k; discriminate Hk.
  - destruct (Htile 0) as [Hsame|(t & Ht & _ & Happ)].
    + vm_compute in Hsame. discriminate Hsame.
    + vm_compute in Ht. injection Ht as <-. exact Happ.
Defined.

(** ** Saving and loading the progress *)

(** C4, as amended.  On a dataset that is not empty:
    - what the saving effect writes for a loaded session with a valid
      index is read back by the loading effect as exactly that index,
      with the mistake record as [JSON.stringify] writes it, which is the
      record itself when no counter is [NaN] or an infinity;
    - whatever state with a current word the page has reached, mounting
      it again on the storage it left (when the storage works) starts
      with the same index and that mistake record;
    - a stored value that is missing, empty, not parsable, [null], behind
      a storage that throws, or a record whose index cannot be converted
      to a number, leaves the first render's index 0 and empty mistake
      record in place, and the effect still completes and marks the
      progress as loaded;
    - a stored record whose index is an integer is used with the index
      wrapped modulo the length of the dataset, hence as a valid index,
      and one without an index with the index 0; either with its mistake
      record (empty when the record has none);
    - a stored index that is another number goes through the same
      arithmetic, [((x % n) + n) % n]; for [NaN] and the infinities the
      result is [NaN], at which there is no word. *)
Theorem progress_round_trip (words : list Word) :
  words ≠ [] →
  (∀ s sto s0 i,
     progressLoaded s = true → available sto = true →
     currentIndex s = Int i → (0 <= i < total words)%Z →
     let s' := loadEffect words (saveEffect s sto) s0 in
     currentIndex s' = currentIndex s
     ∧ mistakes s' = jsonValue <$> mistakes s
     ∧ (storable (mistakes s) → mistakes s' = mistakes s))
  ∧ (∀ w rnd1 rnd2,
       reachable words w → available (storage w) = true →
       is_Some (currentWord words (st w)) →
       let w' := mount words rnd1 rnd2 (storage w) in
       currentIndex (st w') = currentIndex (st w)
       ∧ mistakes (st w') = jsonValue <$> mistakes (st w)
       ∧ (storable (mistakes (st w)) → mistakes (st w') = mistakes (st w)))
  ∧ (∀ sto, unusable sto →
       let s' := loadEffect words sto (initialState words) in
       currentIndex s' = Int 0 ∧ mistakes s' = ∅ ∧ progressLoaded s' = true)
  ∧ (∀ sto i m s0,
       available sto = true →
       item sto = Some (JsonText (ParsedRecord (IndexNumber (Int i)) m)) →
       let s' := loadEffect words sto s0 in
       currentIndex s' = Int (i mod total words)
       ∧ (0 <= i mod total words < total words)%Z
       ∧ is_Some (currentWord words s')
       ∧ mistakes s' = default ∅ m ∧ progressLoaded s' = true)
  ∧ (∀ sto m s0,
       available sto = true →
       item sto = Some (JsonText (ParsedRecord IndexMissing m)) →
       let s' := loadEffect words sto s0 in
       currentIndex s' = Int 0 ∧ mistakes s' = default ∅ m
       ∧ progressLoaded s' = true)
  ∧ (∀ sto x m s0,
       available sto = true →
       item sto = Some (JsonText (ParsedRecord (IndexNumber x) m)) →
       let s' := loadEffect words sto s0 in
       currentIndex s' = normalizeIndex x (Int (total words))
       ∧ mistakes s' = default ∅ m ∧ progressLoaded s' = true
       ∧ (finite x = None → currentIndex s' = NaN ∧ currentWord words s' = None)).
Proof.
  intros Hw. pose proof (total_pos words Hw) as Hn.
  assert (Hsaved : ∀ s sto s0 i,
     progressLoaded s = true → available sto = true →
     currentIndex s = Int i → (0 <= i < total words)%Z →
     loadEffect words (saveEffect s sto) s0
     = setProgressLoaded true
         (setMistakes (jsonValue <$> mistakes s) (setCurrentIndex (Int i) s0))).
  { intros s sto s0 i Hpl Hav Hs Hi.
    unfold saveEffect, setItem, JSON_stringify. rewrite Hpl, Hav, Hs.
    rewrite (loadEffect_record words _ (IndexNumber (Int i))
               (Some (jsonValue <$> mistakes s)) (Int i)) by done.
    simpl. by rewrite normalizeIndex_valid. }
  split; [|split; [|split; [|split; [|split]]]].
  - intros s sto s0 i Hpl Hav Hs Hi s'. subst s'.
    rewrite (Hsaved s sto s0 i) by done. simpl.
    split; [done|]. split; [done|]. by intros ->.
  - intros w rnd1 rnd2 Hr Hav [cw Hcw] w'. subst w'.
    pose proof (reachable_consistent words w Hr) as [_ _ _ _ _ Hpl Hsto].
    destruct (currentWord_Some words _ _ Hcw) as (i & Hs & Hi & _).
    unfold mount.
    destruct (commit_progress words rnd2
      {| st := initialState words;
         listener := render_of words (initialState words);
         storage := storage w |}
      (shuffleEffect rnd1 (currentWord words (initialState words))
         (resetEffect (currentWord words (initialState words))
            (loadEffect words (storage w) (initialState words)))))
      as [-> ->].
    rewrite (loadEffect_record words (storage w) (IndexNumber (Int i))
               (Some (jsonValue <$> mistakes (st w))) (Int i)); try done.
    + rewrite normalizeIndex_valid by done. rewrite Hs.
      destruct (currentWord words (initialState words)); simpl;
        (split; [done|]; split; [done|]; by intros ->).
    + rewrite (Hsto Hw Hav). unfold JSON_stringify. by rewrite Hs.
  - intros sto Hun s'. subst s'. by rewrite loadEffect_unusable.
  - intros sto i m s0 Hav Hit s'. subst s'.
    rewrite (loadEffect_record words sto _ m (Int i)) by done. simpl.
    rewrite normalizeIndex_mod by done.
    assert (Hrange : (0 <= i mod total words < total words)%Z)
      by (apply Z.mod_pos_bound; lia).
    split; [done|]. split; [done|]. split; [|done].
    by apply (currentWord_valid words _ (i mod total words)).
  - intros sto m s0 Hav Hit s'. subst s'.
    rewrite (loadEffect_record words sto _ m (Int 0)) by done. simpl.
    rewrite normalizeIndex_mod by done. rewrite Z.mod_0_l by lia. done.
  - intros sto x m s0 Hav Hit s'. subst s'.
    rewrite (loadEffect_record words sto _ m x) by done. simpl.
    do 3 (split; [done|]). intros Hx.
    unfold currentWord. simpl.
    rewrite normalizeIndex_not_finite by (done || lia). done.
Qed.

Lemma progress_round_trip_witness :
  let words := [hund; katze; Haus] in
  let s := setProgressLoaded true
             (setMistakes {[ "w1" := VNumber (Int 3) ]}
                (setCurrentIndex (Int 2) (initialState words))) in
  let s' := loadEffect words (saveEffect s freshStorage) (initialState words) in
  currentIndex s' = Int 2 ∧ mistakes s' = {[ "w1" := VNumber (Int 3) ]}.
Proof.
  intros words s s'.
  assert (Hw : words ≠ []) by discriminate.
  destruct (progress_round_trip words Hw) as (H & _).
  destruct (H s freshStorage (initialState words) 2%Z) as (H1 & _ & H3).
  - reflexivity.
  - reflexivity.
  - reflexivity.
  - unfold total. simpl. lia.
  - split; [exact H1|]. apply H3. unfold storable. vm_compute. reflexivity.
Defined.

(** C4, as stated, fails on a stored index that is not an integer: the
    stored text [{"index":1.5}] is read on a dataset of two words as the
    index 1.5, which [normalizeIndex] leaves as it is; this is neither
    the fallback 0 nor a position of the dataset, and the page has no
    current word and does not react to any event. *)
Lemma stored_fraction_not_wrapped :
  let words := [hund; katze] in
  let s' := loadEffect words fractionStorage (initialState words) in
  let w := mount words sameCell sameCell fractionStorage in
  currentIndex s' = Frac 3 1
  ∧ currentIndex s' ≠ Int 0
  ∧ (∀ i, currentIndex s' ≠ Int i)
  ∧ currentWord words s' = None
  ∧ currentIndex (st w) = Frac 3 1
  ∧ currentWord words (st w) = None
  ∧ listener w = None
  ∧ step words sameCell (ClickTile 0) w = w
  ∧ step words sameCell (KeyDown "h") w = w.
Proof. vm_compute. by repeat split. Qed.

(** ** Runs of the page *)

(** The scenario of the specification: the four tiles of [hund], then the
    check button. *)
Example hund_solved_by_clicks :
  let w := run [hund] sameCell (clicks [0; 1; 2; 3] ++ [ClickCheck])
             (mount [hund] sameCell sameCell freshStorage) in
  isLocked (st w) = true
  ∧ feedback (st w) = {| message := "Richtig!"; tone := tone_success |}
  ∧ mistakes (st w) !! "w1" = None
  ∧ played (st w)
    = [letterSound; letterSound; letterSound; letterSound; successSound].
Proof. by vm_compute. Qed.

(** A wrong order of the same tiles, then the check button. *)
Example hund_missed_by_clicks :
  let w := run [hund] sameCell (clicks [3; 2; 1; 0] ++ [ClickCheck])
             (mount [hund] sameCell sameCell freshStorage) in
  isLocked (st w) = false
  ∧ mistakes (st w) !! "w1" = Some (VNumber (Int 1))
  ∧ item (storage w)
    = Some (JSON_stringify (Int 0) {[ "w1" := VNumber (Int 1) ]})
  ∧ message (feedback (st w))
    = "Noch nicht ganz richtig. Versuch es noch einmal.".
Proof. by vm_compute. Qed.

(** The [keydown] effect depends on [[allowedLetters, currentWord]] only,
    so the listener on [window] is the one of the render in which the
    current word last changed, and the handlers it calls read the
    [isLocked] and [userInput] of that render.  After mounting these are
    [false] and [[]]: typed letters pass the length test of that render
    however long the attempt has become, and the Enter key checks the
    empty attempt of that render. *)
Example keys_read_the_first_render :
  let w0 := mount [hund] sameCell sameCell freshStorage in
  let typed := run [hund] sameCell
                 (KeyDown <$> ["h"; "u"; "n"; "d"; "h"]) w0 in
  let entered := run [hund] sameCell
                   (clicks [0; 1; 2; 3] ++ [KeyDown "Enter"]) w0 in
  listener w0 = Some {| r_currentWord := hund; r_isLocked := false;
                        r_userInput := [] |}
  ∧ listener typed = listener w0
  ∧ userInput (st typed) = ["h"; "u"; "n"; "d"; "h"]
  ∧ userInput (st entered) = ["h"; "u"; "n"; "d"]
  ∧ isLocked (st entered) = false
  ∧ message (feedback (st entered)) = "Fang mit einem Buchstaben an!".
Proof. by vm_compute. Qed.

(** After the next-button the word changes in a render that is still
    locked and still holds the solved attempt; the listener registered in
    that render finds the session locked at every later key press. *)
Example keys_read_the_locked_render :
  let w := run [hund; katze] sameCell
             (clicks [0; 1; 2; 3] ++ [ClickCheck; ClickNext])
             (mount [hund; katze] sameCell sameCell freshStorage) in
  currentWord [hund; katze] (st w) = Some katze
  ∧ isLocked (st w) = false
  ∧ userInput (st w) = []
  ∧ listener w = Some {| r_currentWord := katze; r_isLocked := true;
                         r_userInput := ["h"; "u"; "n"; "d"] |}
  ∧ userInput (st (step [hund; katze] sameCell (KeyDown "k") w)) = []
  ∧ userInput (st (step [hund; katze] sameCell (ClickTile 0) w)) = ["k"].
Proof. by vm_compute. Qed.

(** On a dataset of one word the next-button leaves the index at 0, the
    current word is the same object, and the effects that reset the
    session do not run. *)
Example single_word_stays_locked :
  let w := run [hund] sameCell (clicks [0; 1; 2; 3] ++ [ClickCheck; ClickNext])
             (mount [hund] sameCell sameCell freshStorage) in
  currentIndex (st w) = Int 0
  ∧ isLocked (st w) = true
  ∧ showNextPopup (st w) = false
  ∧ userInput (st w) = ["h"; "u"; "n"; "d"].
Proof. by vm_compute. Qed.

(** Mounting on a storage that throws, or on a text that does not parse,
    starts at the first word with no mistakes; the page is usable, and
    only a working storage receives the progress. *)
Example mount_without_usable_progress :
  let w1 := mount [hund; katze] sameCell sameCell blockedStorage in
  let w2 := mount [hund; katze] sameCell sameCell garbledStorage in
  currentIndex (st w1) = Int 0 ∧ mistakes (st w1) = ∅
  ∧ progressLoaded (st w1) = true ∧ storage w1 = blockedStorage
  ∧ currentIndex (st w2) = Int 0 ∧ mistakes (st w2) = ∅
  ∧ progressLoaded (st w2) = true
  ∧ item (storage w2) = Some (JSON_stringify (Int 0) ∅).
Proof. by vm_compute. Qed.

(** A dataset that has shrunk since the last save: the stored index 7 is
    wrapped to a valid index of the two words, and the session starts on
    that word with freshly shuffled tiles and a new listener. *)
Example mount_on_shrunk_dataset :
  let sto := {| available := true;
                item := Some (JSON_stringify (Int 7)
                               {[ "w9" := VNumber (Int 2) ]}) |} in
  let w := mount [hund; katze] sameCell firstCell sto in
  currentIndex (st w) = Int 1
  ∧ mistakes (st w) = {[ "w9" := VNumber (Int 2) ]}
  ∧ shuffledLetters (st w) = ["a"; "t"; "z"; "e"; "k"]
  ∧ listener w = Some {| r_currentWord := katze; r_isLocked := false;
                         r_userInput := [] |}.
Proof. by vm_compute. Qed.

(** A stored index that parses as an infinity: the index of the page is
    [NaN], there is no current word, and the saving effect writes [null]
    for the index. *)
Example mount_on_infinite_index :
  let w := mount [hund; katze] sameCell sameCell infinityStorage in
  currentIndex (st w) = NaN
  ∧ currentWord [hund; katze] (st w) = None
  ∧ item (storage w) = Some (JsonText (ParsedRecord IndexMissing (Some ∅)))
  ∧ item (storage w)
    = Some (JSON_stringify (currentIndex (st w)) (mistakes (st w))).
Proof. by vm_compute. Qed.

(** [normalizeIndex] on numbers that are no integers: the fraction stays
    through [%] and [+], unless the sum has to be rounded; 3 - 2^-51 plus
    3 is rounded to 6. *)
Example normalizeIndex_on_fractions :
  normalizeIndex (Frac 3 1) (Int 2) = Frac 3 1
  ∧ normalizeIndex (Frac (-1) 1) (Int 3) = Frac 5 1
  ∧ normalizeIndex (Frac 6755399441055743 51) (Int 3) = Int 0
  ∧ normalizeIndex NaN (Int 3) = NaN
  ∧ normalizeIndex (Infinity false) (Int 3) = NaN
  ∧ normalizeIndex (Frac 3 1) (Int 0) = Int 0.
Proof. by vm_compute. Qed.

(** What counting makes of the values a stored mistake record can hold. *)
Example counting_on_stored_values :
  plusOne (Own (VNumber (Int 3))) = VNumber (Int 4)
  ∧ plusOne (Own (VNumber (Frac 3 1))) = VNumber (Frac 5 1)
  ∧ plusOne (Own (VNumber (Infinity false))) = VNumber (Infinity false)
  ∧ plusOne (Own VNull) = VNumber (Int 1)
  ∧ plusOne (Own (VBool true)) = VNumber (Int 2)
  ∧ plusOne (Own (VString "3")) = VString "31"
  ∧ plusOne (getProperty ∅ "w1") = VNumber (Int 1)
  ∧ plusOne (getProperty ∅ "toString") = VSource "toString" "1"
  ∧ plusOne (getProperty ∅ "__proto__") = VString "[object Object]1"
  ∧ plusOne (getProperty {[ "toString" := VNumber (Int 1) ]} "toString")
    = VNumber (Int 2).
Proof. by vm_compute. Qed.

(** The three wordings of the length report. *)
Example length_reports :
  lengthMessage 3 = "Dir fehlen noch 3 Buchstaben."
  ∧ lengthMessage 1 = "Dir fehlen noch 1 Buchstabe."
  ∧ lengthMessage 12 = "Dir fehlen noch 12 Buchstaben."
  ∧ lengthMessage (-1)
    = String.append "Du hast zu viele Buchstaben gew" (String "228"%char "hlt.").
Proof. by vm_compute. Qed.

(** Lowercasing on the Latin-1 range. *)
Example lowercase_units :
  toLowerCase "Haus" = "haus"
  ∧ toLowerCase "Enter" = "enter"
  ∧ toLowerCase (String "196"%char EmptyString) = String "228"%char EmptyString
  ∧ toLowerCase (String "223"%char EmptyString) = String "223"%char EmptyString
  ∧ toLowerCase (String "215"%char EmptyString) = String "215"%char EmptyString.
Proof. by vm_compute. Qed.

(** * Further properties of the code *)

(** ** [normalizeIndex] *)

(** X1.  For a dataset length [n >= 0] and any integer index, also a
    negative one: with [n = 0] the result is 0, whatever number the index
    is; with [n > 0] the result is a valid index, congruent to the index
    modulo [n]; normalizing again changes nothing; indices that differ by
    a multiple of [n] normalize to the same position; and the index
    before the first wraps to the last. *)
Theorem normalizeIndex_wraps (index n k : Z) :
  (0 <= n)%Z →
  (n = 0%Z → ∀ x : number, normalizeIndex x (Int n) = Int 0)
  ∧ ((0 < n)%Z →
       ∃ r, normalizeIndex (Int index) (Int n) = Int r
            ∧ (0 <= r < n)%Z
            ∧ ((r - index) mod n = 0)%Z
            ∧ normalizeIndex (Int r) (Int n) = Int r
            ∧ normalizeIndex (Int (index + k * n)) (Int n) = Int r
            ∧ normalizeIndex (Int (-1)) (Int n) = Int (n - 1)).
Proof.
  intros _. split.
  - intros -> x. reflexivity.
  - intros Hn. exists (index mod n)%Z.
    rewrite !normalizeIndex_mod by done.
    split; [done|].
    split; [apply Z.mod_pos_bound; lia|].
    split.
    { rewrite Zminus_mod, Z.mod_mod, Z.sub_diag by lia. apply Z.mod_0_l. lia. }
    split; [f_equal; apply Z.mod_mod; lia|].
    split; [f_equal; apply Z.mod_add; lia|].
    f_equal. rewrite <- (Z.mod_add (-1) 1 n) by lia.
    replace (-1 + 1 * n)%Z with (n - 1)%Z by lia.
    apply Z.mod_small. lia.
Qed.

Lemma normalizeIndex_wraps_witness :
  normalizeIndex (Int (-1)) (Int 3) = Int 2
  ∧ normalizeIndex (Int (7 + 2 * 3)) (Int 3) = normalizeIndex (Int 7) (Int 3).
Proof.
  assert (H0 : (0 <= 3)%Z) by lia.
  assert (H1 : (0 < 3)%Z) by lia.
  destruct (proj2 (normalizeIndex_wraps 7 3 2 H0) H1)
    as (r & Hr & _ & _ & _ & Hk & Hm).
  split; [exact Hm|]. by rewrite Hr, Hk.
Defined.

(** ** [shuffleArray] *)

Lemma swap_app_l {A} (i j : nat) (front back : list A) :
  i < length front → j < length front →
  swap i j (front ++ back) = swap i j front ++ back.
Proof.
  intros Hi Hj. unfold swap. rewrite !lookup_app_l by done.
  destruct (lookup_lt_is_Some_2 front i Hi) as [ai ->].
  destruct (lookup_lt_is_Some_2 front j Hj) as [aj ->].
  rewrite insert_app_l by done.
  by rewrite insert_app_l by (by rewrite length_insert).
Qed.

Lemma shuffle_loop_length {A} rnd i (array : list A) :
  length (shuffle_loop rnd i array) = length array.
Proof.
  revert array. induction i as [|i IH]; intros array; simpl; [done|].
  by rewrite IH, swap_length.
Qed.

(** The loop below cell [i] does not reach a cell behind it. *)
Lemma shuffle_loop_app_l {A} rnd rnd' i (front back : list A) :
  i < length front →
  (∀ k, k ≤ i → rnd k = rnd' k ∧ rnd' k ≤ k) →
  shuffle_loop rnd i (front ++ back) = shuffle_loop rnd' i front ++ back.
Proof.
  revert front. induction i as [|i IH]; intros front Hi Hr; simpl; [done|].
  destruct (Hr (S i)) as [-> Hle]; [lia|].
  rewrite swap_app_l by lia.
  apply IH; [by rewrite swap_length; lia|]. intros k Hk. apply Hr. lia.
Qed.

Lemma snoc_at_last {A} (array : list A) (m : nat) (x : A) :
  length array = S m → array !! m = Some x → array = take m array ++ [x].
Proof.
  intros Hlen Hx. rewrite <- (take_S_r _ _ _ Hx). by rewrite take_ge by lia.
Qed.

Lemma shuffle_loop_reaches {A} (m : nat) :
  ∀ array target : list A,
    length array = S m → array ≡ₚ target →
    ∃ rnd, (∀ k, rnd k ≤ k) ∧ shuffle_loop rnd m array = target.
Proof.
  induction m as [|m IH]; intros array target Hlen Hperm.
  { exists (λ k, k). split; [done|]. simpl.
    destruct array as [|a [|??]]; try done.
    by apply Permutation_singleton_l in Hperm. }
  pose proof (Permutation_length Hperm) as Hlt. rewrite Hlen in Hlt.
  destruct (last target) as [x|] eqn:Hlast; last first.
  { apply last_None in Hlast. subst target. simpl in Hlt. lia. }
  apply last_Some in Hlast as [front ->].
  assert (Hx : x ∈ array).
  { rewrite Hperm. apply elem_of_app. right. by apply list_elem_of_singleton. }
  apply list_elem_of_lookup_1 in Hx as [j Hj].
  pose proof (lookup_lt_Some _ _ _ Hj) as Hjlt.
  set (swapped := swap (S m) j array).
  assert (Hsx : swapped !! S m = Some x).
  { subst swapped. rewrite swap_lookup by lia. by rewrite decide_True. }
  assert (Hslen : length swapped = S (S m)) by (subst swapped; by rewrite swap_length).
  pose proof (snoc_at_last swapped (S m) x Hslen Hsx) as Hsplit.
  assert (Hq : take (S m) swapped ≡ₚ front).
  { apply (Permutation_app_inv_r [x]). rewrite <- Hsplit.
    subst swapped. by rewrite swap_Permutation. }
  destruct (IH (take (S m) swapped) front) as (rnd' & Hr' & Hloop); [|done|].
  { rewrite length_take_le; lia. }
  exists (λ k, if decide (k = S m) then j else rnd' k). split.
  { intros k. case_decide; [lia|apply Hr']. }
  simpl. rewrite decide_True by done. fold swapped. rewrite Hsplit.
  rewrite (shuffle_loop_app_l _ rnd').
  - by rewrite Hloop.
  - rewrite length_take_le; lia.
  - intros k Hk. rewrite decide_False by lia. split; [done|apply Hr'].
Qed.

(** X2.  Whatever the draws, [shuffleArray] returns a rearrangement of its
    input of the same length, and an input of at most one element comes
    back as it is. *)
Theorem shuffleArray_rearranges {A} (rnd : nat → nat) (input : list A) :
  shuffleArray rnd input ≡ₚ input
  ∧ length (shuffleArray rnd input) = length input
  ∧ (length input ≤ 1 → shuffleArray rnd input = input).
Proof.
  split; [apply shuffle_loop_Permutation|].
  split; [apply shuffle_loop_length|].
  intros Hle. unfold shuffleArray.
  by replace (length input - 1) with 0 by lia.
Qed.

(** X3.  Every ordering of the input can come out of [shuffleArray]: for
    each rearrangement of the input there are draws, each within its
    range [0 .. i], under which the loop produces exactly that
    rearrangement. *)
Theorem shuffleArray_reaches_every_order {A} (input target : list A) :
  input ≡ₚ target →
  ∃ rnd, (∀ i, rnd i ≤ i) ∧ shuffleArray rnd input = target.
Proof.
  intros Hperm. unfold shuffleArray.
  destruct input as [|a input].
  { apply Permutation_nil_l in Hperm. subst target. by exists (λ k, k). }
  simpl. rewrite Nat.sub_0_r. by apply shuffle_loop_reaches.
Qed.

Lemma shuffleArray_reaches_every_order_witness :
  ∃ rnd, (∀ i, rnd i ≤ i)
         ∧ shuffleArray rnd (letters hund) = ["d"; "n"; "u"; "h"].
Proof.
  apply (shuffleArray_reaches_every_order (letters hund) ["d"; "n"; "u"; "h"]).
  symmetry. exact (reverse_Permutation (letters hund)).
Defined.

(** ** The buttons of the attempt *)

Lemma dispatch_backspace words w cw :
  currentWord words (st w) = Some cw →
  dispatch words ClickBackspace w = handleBackspace (renderAt (st w) cw) (st w).
Proof. intros Hcw. unfold dispatch, render_of. by rewrite Hcw. Qed.

Lemma dispatch_clear words w cw :
  currentWord words (st w) = Some cw →
  dispatch words ClickClear w = handleClear (renderAt (st w) cw) (st w).
Proof. intros Hcw. unfold dispatch, render_of. by rewrite Hcw. Qed.

Lemma dispatch_check words w cw :
  currentWord words (st w) = Some cw →
  dispatch words ClickCheck w = handleCheck (renderAt (st w) cw) (st w).
Proof. intros Hcw. unfold dispatch, render_of. by rewrite Hcw. Qed.

Lemma dispatch_tile words w cw i letter :
  currentWord words (st w) = Some cw →
  shuffledLetters (st w) !! i = Some letter →
  dispatch words (ClickTile i) w
  = handleLetterClick (renderAt (st w) cw) letter (st w).
Proof. intros Hcw Hi. unfold dispatch, render_of. by rewrite Hcw, Hi. Qed.

(** X4.  A click on the backspace button, in a session that is not
    locked: on an empty attempt it changes nothing; on an attempt that
    ends in a letter it drops exactly that letter and leaves the feedback,
    the status, the listener, the storage and all else as they are; and a
    click on a tile that finds room, followed by a click on the backspace
    button, gives the attempt back (what remains of the two is the letter
    sound that was played). *)
Theorem backspace_drops_last
    (words : list Word) (w : World) (cw : Word) (rnd : nat → nat) :
  currentWord words (st w) = Some cw →
  isLocked (st w) = false →
  let w' := step words rnd ClickBackspace w in
  (userInput (st w) = [] → w' = w)
  ∧ (∀ front x, userInput (st w) = front ++ [x] →
       w' = {| st := setUserInput front (st w); listener := listener w;
               storage := storage w |})
  ∧ (∀ i letter,
       shuffledLetters (st w) !! i = Some letter →
       length (userInput (st w)) < String.length (word cw) →
       let clicked := step words rnd (ClickTile i) w in
       userInput (st clicked) = userInput (st w) ++ [letter]
       ∧ st (step words rnd ClickBackspace clicked)
         = setUserInput (userInput (st w)) (playSound letterSound (st w))).
Proof.
  intros Hcw Hl w'. subst w'.
  assert (Hback : ∀ v : World, ∀ front x,
            currentWord words (st v) = Some cw → isLocked (st v) = false →
            userInput (st v) = front ++ [x] →
            dispatch words ClickBackspace v = setUserInput front (st v)).
  { intros v front x Hv Hlv Hx. rewrite (dispatch_backspace words v cw Hv).
    unfold handleBackspace. simpl. rewrite Hlv, Hx, length_app. simpl.
    replace (length front + 1 =? 0) with false
      by (symmetry; apply Nat.eqb_neq; lia).
    replace (length front + 1 - 1) with (length front) by lia.
    by rewrite take_app_length. }
  split; [|split].
  - intros Hin. unfold step.
    replace (dispatch words ClickBackspace w) with (st w); [apply commit_same|].
    rewrite (dispatch_backspace words w cw Hcw). unfold handleBackspace. simpl.
    by rewrite Hl, Hin.
  - intros front x Hx. rewrite step_same_progress;
      rewrite (Hback w front x Hcw Hl Hx); done.
  - intros i letter Hi Hroom clicked. subst clicked.
    assert (Hclick : st (step words rnd (ClickTile i) w)
              = setUserInput (userInput (st w) ++ [letter])
                  (playSound letterSound (st w))).
    { destruct (step_not_next words rnd (ClickTile i) w) as (_ & _ & ->); [done|].
      rewrite (dispatch_tile words w cw i letter Hcw Hi).
      unfold handleLetterClick. simpl. rewrite Hl.
      by replace (String.length (word cw) <=? length (userInput (st w)))
        with false by (symmetry; apply Nat.leb_gt; lia). }
    split; [by rewrite Hclick|].
    destruct (step_not_next words rnd ClickBackspace
                (step words rnd (ClickTile i) w)) as (_ & _ & ->); [done|].
    rewrite (Hback _ (userInput (st w)) letter); rewrite Hclick; done.
Qed.

Lemma backspace_drops_last_witness :
  let w := run [hund] sameCell (clicks [0; 1])
             (mount [hund] sameCell sameCell freshStorage) in
  userInput (st (step [hund] sameCell ClickBackspace w)) = ["h"].
Proof.
  intros w.
  destruct (backspace_drops_last [hund] w hund sameCell eq_refl eq_refl)
    as (_ & H & _).
  by rewrite (H ["h"] "u" eq_refl).
Defined.

(** X5.  A click on the clear button, in a session that is not locked:
    on an empty attempt it changes nothing, so a feedback that is shown
    stays; on any other attempt it empties the attempt and resets feedback
    and status, and nothing else.  A second click changes nothing, and the
    mistake record, the lock and the index are never touched. *)
Theorem clear_resets_attempt
    (words : list Word) (w : World) (cw : Word) (rnd : nat → nat) :
  currentWord words (st w) = Some cw →
  isLocked (st w) = false →
  let w' := step words rnd ClickClear w in
  (userInput (st w) = [] → w' = w)
  ∧ (userInput (st w) ≠ [] →
       w' = {| st := setStatus status_idle
                       (setFeedback noFeedback (setUserInput [] (st w)));
               listener := listener w; storage := storage w |})
  ∧ step words rnd ClickClear w' = w'
  ∧ mistakes (st w') = mistakes (st w)
  ∧ isLocked (st w') = false
  ∧ currentIndex (st w') = currentIndex (st w).
Proof.
  intros Hcw Hl w'. subst w'.
  assert (Hempty : ∀ v : World,
            currentWord words (st v) = Some cw → userInput (st v) = [] →
            step words rnd ClickClear v = v).
  { intros v Hv Hin. unfold step.
    replace (dispatch words ClickClear v) with (st v); [apply commit_same|].
    rewrite (dispatch_clear words v cw Hv). unfold handleClear. simpl.
    rewrite Hin. simpl. by rewrite orb_true_r. }
  destruct (userInput (st w)) as [|a rest] eqn:Hin.
  { rewrite (Hempty w Hcw Hin). rewrite (Hempty w Hcw Hin).
    by repeat split. }
  assert (Hd : dispatch words ClickClear w
               = setStatus status_idle
                   (setFeedback noFeedback (setUserInput [] (st w)))).
  { rewrite (dispatch_clear words w cw Hcw). unfold handleClear. simpl.
    by rewrite Hl, Hin. }
  rewrite step_same_progress; rewrite Hd; try done.
  split; [done|]. split; [done|]. split; [|by repeat split].
  apply Hempty; [|done]. simpl. rewrite <- Hcw.
  by apply currentWord_same_index.
Qed.

Lemma clear_resets_attempt_witness :
  let w := run [hund] sameCell (clicks [0; 1] ++ [ClickCheck])
             (mount [hund] sameCell sameCell freshStorage) in
  userInput (st (step [hund] sameCell ClickClear w)) = []
  ∧ feedback (st (step [hund] sameCell ClickClear w)) = noFeedback.
Proof.
  intros w.
  destruct (clear_resets_attempt [hund] w hund sameCell eq_refl eq_refl)
    as (_ & H & _).
  rewrite H by discriminate. by split.
Defined.

(** X6.  A click on the check button with an empty attempt, in a
    session that is not locked, asks for a letter, with the error status,
    the error tone, the shake cue and the error sound; it counts no
    mistake, does not lock, does not show the popup, and leaves the
    listener and the storage as they are. *)
Theorem check_empty_attempt
    (words : list Word) (w : World) (cw : Word) (rnd : nat → nat) :
  currentWord words (st w) = Some cw →
  isLocked (st w) = false →
  join (userInput (st w)) = EmptyString →
  let w' := step words rnd ClickCheck w in
  feedback (st w')
  = {| message := "Fang mit einem Buchstaben an!"; tone := tone_error |}
  ∧ status (st w') = status_error
  ∧ shake (st w') = true
  ∧ played (st w') = played (st w) ++ [errorSound]
  ∧ mistakes (st w') = mistakes (st w)
  ∧ isLocked (st w') = false
  ∧ showNextPopup (st w') = showNextPopup (st w)
  ∧ userInput (st w') = userInput (st w)
  ∧ listener w' = listener w
  ∧ storage w' = storage w.
Proof.
  intros Hcw Hl He w'. subst w'.
  assert (Hd : dispatch words ClickCheck w
               = triggerShake
                   (setStatus status_error
                      (setFeedback {| message := "Fang mit einem Buchstaben an!";
                                      tone := tone_error |}
                         (playSound errorSound (st w))))).
  { rewrite (dispatch_check words w cw Hcw). by apply handleCheck_empty. }
  rewrite step_same_progress; rewrite Hd; done.
Qed.

Lemma check_empty_attempt_witness :
  let w := mount [hund] sameCell sameCell freshStorage in
  mistakes (st (step [hund] sameCell ClickCheck w)) = ∅
  ∧ isLocked (st (step [hund] sameCell ClickCheck w)) = false.
Proof.
  intros w.
  destruct (check_empty_attempt [hund] w hund sameCell eq_refl eq_refl eq_refl)
    as (_ & _ & _ & _ & H5 & H6 & _).
  split; [exact H5 | exact H6].
Defined.

(** X7.  A click on the check button, in a session that is not locked,
    has exactly one of two outcomes.  Either the attempt spells the
    non-empty target: the session is locked, the popup shown, the success
    sound played, and shake and mistake record stay.  Or it does not: the
    session stays unlocked, the popup as it was, the error sound is
    played, and status, tone and shake signal the error; then a mistake
    is counted, at the id of the current word, when the attempt is not
    empty and has the target's length, and the mistake record stays
    otherwise.  In both the attempt, the index and the tiles stay. *)
Theorem check_has_two_outcomes
    (words : list Word) (w : World) (cw : Word) (rnd : nat → nat) :
  currentWord words (st w) = Some cw →
  isLocked (st w) = false →
  let s := st w in
  let s' := st (step words rnd ClickCheck w) in
  ((join (userInput s) = word cw ∧ word cw ≠ EmptyString
    ∧ isLocked s' = true ∧ showNextPopup s' = true
    ∧ status s' = status_success
    ∧ played s' = played s ++ [successSound]
    ∧ shake s' = shake s ∧ mistakes s' = mistakes s)
   ∨ ((join (userInput s) ≠ word cw ∨ word cw = EmptyString)
      ∧ isLocked s' = false ∧ showNextPopup s' = showNextPopup s
      ∧ status s' = status_error ∧ tone (feedback s') = tone_error
      ∧ played s' = played s ++ [errorSound]
      ∧ shake s' = true
      ∧ (join (userInput s) ≠ EmptyString →
         String.length (join (userInput s)) = String.length (word cw) →
         mistakes s'
         = <[id cw := plusOne (getProperty (mistakes s) (id cw))]> (mistakes s))
      ∧ (join (userInput s) = EmptyString
         ∨ String.length (join (userInput s)) ≠ String.length (word cw) →
         mistakes s' = mistakes s)))
  ∧ userInput s' = userInput s
  ∧ currentIndex s' = currentIndex s
  ∧ shuffledLetters s' = shuffledLetters s.
Proof.
  intros Hcw Hl s s'. subst s s'.
  destruct (step_not_next words rnd ClickCheck w) as (_ & _ & ->); [done|].
  rewrite (dispatch_check words w cw Hcw).
  split; [|by rewrite handleCheck_attempt;
           destruct (handleCheck_keeps (renderAt (st w) cw) (st w)) as (? & ? & _)].
  destruct (decide (join (userInput (st w)) = EmptyString)) as [He|Hne].
  { right. rewrite (handleCheck_empty (renderAt (st w) cw) (st w) Hl He). simpl.
    split.
    { destruct (decide (word cw = EmptyString)); [by right|left; congruence]. }
    do 6 (split; [done|]). split; done. }
  destruct (decide (String.length (join (userInput (st w)))
                    = String.length (word cw))) as [Hlen|Hlen].
  - destruct (decide (join (userInput (st w)) = word cw)) as [Heq|Hneq].
    + left. rewrite handleCheck_match; simpl; try done; [|congruence].
      split; [done|]. split; [congruence|]. by repeat split.
    + right. rewrite handleCheck_mismatch by done. simpl.
      split; [by left|]. do 6 (split; [done|]). split; [done|].
      by intros [?|?].
  - right. rewrite handleCheck_wrong_length by done. simpl.
    split; [left; congruence|]. do 6 (split; [done|]).
    split; done.
Qed.

Lemma check_has_two_outcomes_witness :
  let w := run [hund] sameCell (clicks [0; 1; 2; 3])
             (mount [hund] sameCell sameCell freshStorage) in
  played (st (step [hund] sameCell ClickCheck w))
  = played (st w) ++ [successSound].
Proof.
  intros w.
  destruct (check_has_two_outcomes [hund] w hund sameCell eq_refl eq_refl)
    as [[H|H] _].
  - destruct H as (_ & _ & _ & _ & _ & Hp & _). exact Hp.
  - destruct H as (_ & Hlk & _). vm_compute in Hlk. discriminate Hlk.
Defined.

(** X22.  A click on the check button, in a session that is not locked
    and whose joined attempt has the target's length but is another string:
    the property of the mistake record named by the word's id becomes
    [(prev[id] ?? 0) + 1], which is one more than an integer below 2^53
    it held and 1 where the record neither has nor inherits such a
    property; every
    other property stays; the session stays unlocked; the feedback is the
    retry sentence followed by the hint text: the word's tip behind a
    label when the word has a non-empty tip, a generic sentence otherwise;
    in every case a tip the word has occurs in the message. *)
Theorem check_button_counts_wrong_spelling
    (words : list Word) (w : World) (cw : Word) (rnd : nat → nat) :
  currentWord words (st w) = Some cw →
  isLocked (st w) = false →
  String.length (join (userInput (st w))) = String.length (word cw) →
  join (userInput (st w)) ≠ word cw →
  let s' := st (step words rnd ClickCheck w) in
  mistakes s'
  = <[id cw := plusOne (getProperty (mistakes (st w)) (id cw))]> (mistakes (st w))
  ∧ (∀ c, (Z.abs c < 2 ^ 53)%Z →
          mistakes (st w) !! id cw = Some (VNumber (Int c)) →
          mistakes s' !! id cw = Some (VNumber (Int (c + 1))))
  ∧ (mistakes (st w) !! id cw = None → id cw ∉ objectPrototype →
     mistakes s' !! id cw = Some (VNumber (Int 1)))
  ∧ (∀ k, k ≠ id cw → mistakes s' !! k = mistakes (st w) !! k)
  ∧ isLocked s' = false
  ∧ status s' = status_error
  ∧ shake s' = true
  ∧ played s' = played (st w) ++ [errorSound]
  ∧ tone (feedback s') = tone_error
  ∧ message (feedback s') = ("Noch nicht ganz richtig. " ++ hintText cw)%string
  ∧ (∀ t, hints cw = Some {| tip := Some t |} → t ≠ EmptyString →
       hintText cw = ("Tipp: " ++ t)%string)
  ∧ (hints cw = None ∨ hints cw = Some {| tip := None |}
     ∨ hints cw = Some {| tip := Some EmptyString |} →
       hintText cw = "Versuch es noch einmal.")
  ∧ (∀ t, hints cw = Some {| tip := Some t |} →
       ∃ before after, message (feedback s') = (before ++ t ++ after)%string).
Proof.
  intros Hcw Hl Hlen Hne s'. subst s'.
  destruct (step_not_next words rnd ClickCheck w) as (_ & _ & ->); [done|].
  unfold dispatch, render_of. rewrite Hcw. simpl.
  rewrite handleCheck_mismatch by done. cbn.
  destruct (plusOne_counts (mistakes (st w)) (id cw)) as (Hnum & Hnone & _).
  split; [done|].
  split; [by intros c _ Hc; rewrite lookup_insert_eq, (Hnum c Hc)|].
  split; [by intros Hc Hk; rewrite lookup_insert_eq, (Hnone Hc Hk)|].
  split; [by intros k Hk; rewrite lookup_insert_ne|].
  do 6 (split; [done|]).
  assert (Htip : ∀ t, hints cw = Some {| tip := Some t |} → t ≠ EmptyString →
                  hintText cw = ("Tipp: " ++ t)%string).
  { intros t Ht Hnt. unfold hintText. rewrite Ht.
    destruct (Nat.eqb_spec (String.length t) 0) as [E|_]; [|done].
    by apply length_zero_empty in E. }
  split; [exact Htip|].
  split.
  { unfold hintText. by intros [-> | [-> | ->]]. }
  intros t Ht. destruct (decide (t = EmptyString)) as [->|Hnt].
  - exists EmptyString. eexists. reflexivity.
  - exists "Noch nicht ganz richtig. Tipp: ", EmptyString.
    rewrite (Htip t Ht Hnt), append_empty_r. reflexivity.
Qed.

Lemma check_button_counts_wrong_spelling_witness :
  let w := run [hund] sameCell (clicks [3; 2; 1; 0])
             (mount [hund] sameCell sameCell freshStorage) in
  mistakes (st (step [hund] sameCell ClickCheck w)) !! "w1"
  = Some (VNumber (Int 1))
  ∧ isLocked (st (step [hund] sameCell ClickCheck w)) = false.
Proof.
  intros w.
  destruct (check_button_counts_wrong_spelling [hund] w hund sameCell)
    as (_ & _ & H3 & _ & H5 & _).
  - reflexivity.
  - reflexivity.
  - reflexivity.
  - discriminate.
  - split; [|exact H5]. apply H3; [reflexivity|].
    intros H. vm_compute in H. apply list_elem_of_In in H. simpl in H.
    repeat (destruct H as [H|H]; [discriminate H|]). exact H.
Defined.

(** X23.  A click on the check button with a joined attempt that is not
    empty and whose length differs from the target's leaves the mistake record,
    the lock, the attempt and the index as they are.  When the session is
    not locked it sets the error status, the shake cue and an error
    feedback: the exact number of missing letters, with the plural ending
    unless one letter is missing, when the attempt is too short, and the
    too-many sentence when it is too long; beyond the feedback, the
    status, the shake cue and the error sound nothing changes.  When the
    session is locked it changes nothing at all. *)
Theorem check_button_reports_wrong_length
    (words : list Word) (w : World) (cw : Word) (rnd : nat → nat) :
  currentWord words (st w) = Some cw →
  join (userInput (st w)) ≠ EmptyString →
  String.length (join (userInput (st w))) ≠ String.length (word cw) →
  let s := st w in
  let s' := st (step words rnd ClickCheck w) in
  let missing :=
    (Z.of_nat (String.length (word cw))
     - Z.of_nat (String.length (join (userInput s))))%Z in
  (mistakes s' = mistakes s ∧ isLocked s' = isLocked s
   ∧ userInput s' = userInput s ∧ currentIndex s' = currentIndex s)
  ∧ (isLocked s = true → step words rnd ClickCheck w = w)
  ∧ (isLocked s = false →
       status s' = status_error ∧ shake s' = true
       ∧ tone (feedback s') = tone_error
       ∧ ((0 < missing)%Z →
            message (feedback s')
            = ("Dir fehlen noch " ++ number_to_string missing ++ " Buchstabe"
               ++ (if (missing =? 1)%Z then EmptyString else "n") ++ ".")%string)
       ∧ ((missing < 0)%Z →
            message (feedback s')
            = ("Du hast zu viele Buchstaben gew" ++ String "228"%char "hlt.")%string)
       ∧ s' = triggerShake
                (setStatus status_error
                   (setFeedback (feedback s') (playSound errorSound s)))).
Proof.
  intros Hcw Hne Hlen s s' missing. subst s s'.
  assert (Hd : dispatch words ClickCheck w
               = handleCheck (renderAt (st w) cw) (st w)).
  { unfold dispatch, render_of. by rewrite Hcw. }
  destruct (step_not_next words rnd ClickCheck w) as (_ & _ & ->); [done|].
  destruct (isLocked (st w)) eqn:Hl.
  { assert (Hsame : dispatch words ClickCheck w = st w).
    { rewrite Hd. by apply handleCheck_locked. }
    rewrite Hsame. split; [by repeat split|]. split; [|done].
    intros _. unfold step. rewrite Hsame. apply commit_same. }
  rewrite Hd, handleCheck_wrong_length by done. simpl. fold missing.
  split; [by repeat split|]. split; [done|]. intros _.
  do 3 (split; [done|]).
  unfold lengthMessage.
  split; [|split; [|done]].
  - intros Hpos. by destruct (Z.ltb_spec 0 missing); [|lia].
  - intros Hneg. by destruct (Z.ltb_spec 0 missing); [lia|].
Qed.

Lemma check_button_reports_wrong_length_witness :
  let w := run [hund] sameCell (clicks [0])
             (mount [hund] sameCell sameCell freshStorage) in
  message (feedback (st (step [hund] sameCell ClickCheck w)))
  = "Dir fehlen noch 3 Buchstaben."
  ∧ mistakes (st (step [hund] sameCell ClickCheck w)) = mistakes (st w).
Proof.
  intros w.
  destruct (check_button_reports_wrong_length [hund] w hund sameCell)
    as ((H1 & _) & _ & H3).
  - reflexivity.
  - discriminate.
  - vm_compute. lia.
  - destruct (H3 eq_refl) as (_ & _ & _ & H4 & _).
    split; [apply H4; vm_compute; reflexivity | exact H1].
Defined.

(** X24.  A click on a tile in a locked session changes nothing.  In a
    session that is not locked and whose attempt already has the target's length
    or more, it leaves the attempt as it is and raises the shake cue, and
    nothing else changes; with room left it appends the letter of the
    tile and plays the letter sound.  So under a click an attempt within
    the target's length stays within it. *)
Theorem tile_click_respects_length
    (words : list Word) (w : World) (cw : Word) (rnd : nat → nat)
    (i : nat) (letter : string) :
  currentWord words (st w) = Some cw →
  shuffledLetters (st w) !! i = Some letter →
  let s := st w in
  let s' := st (step words rnd (ClickTile i) w) in
  (isLocked s = true → step words rnd (ClickTile i) w = w)
  ∧ (isLocked s = false → String.length (word cw) ≤ length (userInput s) →
       userInput s' = userInput s ∧ shake s' = true ∧ s' = triggerShake s)
  ∧ (isLocked s = false → length (userInput s) < String.length (word cw) →
       s' = setUserInput (userInput s ++ [letter]) (playSound letterSound s))
  ∧ (length (userInput s) ≤ String.length (word cw) →
       length (userInput s') ≤ String.length (word cw)).
Proof.
  intros Hcw Hi s s'. subst s s'.
  assert (Hd : dispatch words (ClickTile i) w
               = handleLetterClick (renderAt (st w) cw) letter (st w)).
  { unfold dispatch, render_of. by rewrite Hcw, Hi. }
  destruct (step_not_next words rnd (ClickTile i) w) as (_ & _ & ->); [done|].
  rewrite Hd. unfold handleLetterClick. simpl.
  destruct (isLocked (st w)) eqn:Hl.
  { split; [|by repeat split]. intros _. unfold step. rewrite Hd.
    unfold handleLetterClick. simpl. rewrite Hl. apply commit_same. }
  split; [done|].
  destruct (Nat.leb_spec (String.length (word cw)) (length (userInput (st w))))
    as [Hfull|Hroom].
  - split; [by repeat split|]. split; [intros; lia|done].
  - split; [intros; lia|]. split; [done|].
    intros _. simpl. rewrite length_app. simpl. lia.
Qed.

Lemma tile_click_respects_length_witness :
  let w := run [hund] sameCell (clicks [0; 1; 2; 3])
             (mount [hund] sameCell sameCell freshStorage) in
  userInput (st (step [hund] sameCell (ClickTile 0) w)) = ["h"; "u"; "n"; "d"]
  ∧ shake (st (step [hund] sameCell (ClickTile 0) w)) = true.
Proof.
  intros w.
  destruct (tile_click_respects_length [hund] w hund sameCell 0 "h"
              eq_refl eq_refl) as (_ & H & _).
  destruct (H eq_refl) as (H1 & H2 & _).
  - vm_compute. lia.
  - split; [exact H1 | exact H2].
Defined.

(** ** Advancing *)

Lemma handleNext_iter words s i k :
  words ≠ [] → currentIndex s = Int i → (0 <= i < total words)%Z →
  currentIndex (Nat.iter k (handleNext words) s)
  = Int ((i + Z.of_nat k) mod total words).
Proof.
  intros Hw Hs Hi. pose proof (total_pos words Hw) as Hn.
  induction k as [|k IH].
  - simpl. rewrite Z.add_0_r, Hs. f_equal. symmetry. apply Z.mod_small. lia.
  - rewrite Nat.iter_succ, handleNext_nonempty by done. simpl.
    rewrite IH. simpl. rewrite normalizeIndex_mod by done. f_equal.
    rewrite Z.add_mod_idemp_l by lia. f_equal. lia.
Qed.

(** X8.  On a dataset of [n > 0] words, starting from a valid index,
    [n] calls of [handleNext] come back to the starting index, and fewer
    calls (at least one) never do: the words are visited in a cycle, each
    once. *)
Theorem next_cycles_through_words (words : list Word) (s : State) (i : Z) :
  words ≠ [] →
  currentIndex s = Int i →
  (0 <= i < total words)%Z →
  currentIndex (Nat.iter (length words) (handleNext words) s) = currentIndex s
  ∧ ∀ k, 0 < k < length words →
         currentIndex (Nat.iter k (handleNext words) s) ≠ currentIndex s.
Proof.
  intros Hw Hs Hi. pose proof (total_pos words Hw) as Hn. split.
  - rewrite (handleNext_iter words s i) by done. rewrite Hs. f_equal.
    fold (total words).
    rewrite <- (Z.mul_1_l (total words)) at 1.
    rewrite Z.mod_add by lia. apply Z.mod_small. lia.
  - intros k Hk. rewrite (handleNext_iter words s i) by done. rewrite Hs.
    intros [= Heq]. revert Heq. unfold total in *.
    destruct (Z_lt_le_dec (i + Z.of_nat k) (Z.of_nat (length words)))
      as [Hlt|Hge].
    + rewrite Z.mod_small by lia. lia.
    + replace (i + Z.of_nat k)%Z
        with (i + Z.of_nat k - Z.of_nat (length words)
              + 1 * Z.of_nat (length words))%Z by lia.
      rewrite Z.mod_add by lia. rewrite Z.mod_small by lia. lia.
Qed.

Lemma next_cycles_through_words_witness :
  let words := [hund; katze; Haus] in
  currentIndex (Nat.iter 3 (handleNext words)
                  (setCurrentIndex (Int 1) (initialState words))) = Int 1.
Proof.
  intros words.
  assert (Hw : words ≠ []) by discriminate.
  assert (Hi : (0 <= 1 < total words)%Z) by (unfold total; simpl; lia).
  exact (proj1 (next_cycles_through_words words
                  (setCurrentIndex (Int 1) (initialState words)) 1 Hw eq_refl Hi)).
Defined.

(** ** The page over its events *)

Lemma handleKeydown_locked r key s :
  r_isLocked r = true → handleKeydown r key s = s.
Proof.
  intros Hl. unfold handleKeydown, handleBackspace, handleCheck, handleClear,
    handleLetterClick. rewrite Hl. simpl. by repeat case_match.
Qed.

(** No handler releases the lock. *)
Lemma dispatch_stays_locked words e w :
  isLocked (st w) = true → isLocked (dispatch words e w) = true.
Proof.
  intros Hl. unfold dispatch, render_of, handleKeydown, handleBackspace,
    handleCheck, handleClear, handleLetterClick, handleNext,
    handleAnimationEnd, handleAudioClick, audioUnavailable, audioStopped.
  destruct e; repeat case_match; simpl; done.
Qed.

(** Only the shown next-button changes the current word. *)
Lemma word_change_is_next words e w :
  wordChanged words (st w) (dispatch words e w) = true →
  e = ClickNext ∧ showNextPopup (st w) = true
  ∧ dispatch words e w = handleNext words (st w).
Proof.
  intros Hwc.
  destruct (dispatch_cases words e w) as [(Hi & _)|(He & Hp & _ & Hd)]; [|done].
  by rewrite (wordChanged_same_index words _ _ Hi) in Hwc.
Qed.

Lemma loadEffect_session words sto s :
  userInput (loadEffect words sto s) = userInput s
  ∧ isLocked (loadEffect words sto s) = isLocked s
  ∧ showNextPopup (loadEffect words sto s) = showNextPopup s
  ∧ audioAvailable (loadEffect words sto s) = audioAvailable s.
Proof.
  unfold loadEffect, loadBody, getItem.
  repeat case_match; simplify_eq; by simpl.
Qed.

Lemma render_of_Some words s lr :
  render_of words s = Some lr →
  r_isLocked lr = isLocked s ∧ r_userInput lr = userInput s
  ∧ currentWord words s = Some (r_currentWord lr).
Proof.
  unfold render_of. destruct (currentWord words s); simpl; [|done].
  by intros [= <-].
Qed.

(** The state that follows the first render has an empty attempt and is
    not locked. *)
Lemma first_effects_session words rnd sto :
  let s1 := shuffleEffect rnd (currentWord words (initialState words))
              (resetEffect (currentWord words (initialState words))
                 (loadEffect words sto (initialState words))) in
  userInput s1 = [] ∧ isLocked s1 = false ∧ showNextPopup s1 = false.
Proof.
  destruct (loadEffect_session words sto (initialState words)) as (Hu & Hl & Hp & _).
  destruct (currentWord words (initialState words)); simpl; [done|].
  by rewrite Hu, Hl, Hp.
Qed.

(** The listener was registered in a render that was locked or had an
    empty attempt. *)
Lemma reachable_listener words w :
  reachable words w →
  ∀ lr, listener w = Some lr → r_isLocked lr = true ∨ r_userInput lr = [].
Proof.
  induction 1 as [rnd1 rnd2 sto|rnd e w Hr IH].
  - intros lr. unfold mount, commit.
    destruct (first_effects_session words rnd1 sto) as (Hu & _).
    case_match; simpl; intros Hlr; apply render_of_Some in Hlr as (_ & -> & _);
      by right.
  - unfold step, commit.
    destruct (wordChanged words (st w) (dispatch words e w)) eqn:Hwc; simpl;
      [|exact IH].
    destruct (word_change_is_next words e w Hwc) as (-> & Hp & Hd).
    pose proof (popup_locked words w (reachable_consistent words w Hr) Hp) as Hl.
    intros lr Hlr. apply render_of_Some in Hlr as (-> & _).
    left. by apply dispatch_stays_locked.
Qed.

Lemma run_not_next words rnd es w :
  ClickNext ∉ es →
  listener (run words rnd es w) = listener w
  ∧ currentIndex (st (run words rnd es w)) = currentIndex (st w).
Proof.
  revert w. induction es as [|e es IH]; intros w Hes; simpl; [done|].
  apply not_elem_of_cons in Hes as [He Hes].
  destruct (IH (step words rnd e w) Hes) as [-> ->].
  destruct (step_not_next words rnd e w) as (? & ? & _); [done|]. done.
Qed.

Lemma handleCheck_mistakes r s :
  mistakes (handleCheck r s) = mistakes s
  ∨ (r_isLocked r = false
     ∧ String.length (join (r_userInput r)) = String.length (word (r_currentWord r))
     ∧ join (r_userInput r) ≠ word (r_currentWord r)
     ∧ mistakes (handleCheck r s)
       = <[id (r_currentWord r) :=
             plusOne (getProperty (mistakes s) (id (r_currentWord r)))]>
           (mistakes s)).
Proof.
  destruct (r_isLocked r) eqn:Hl; [left; by rewrite handleCheck_locked|].
  destruct (decide (String.length (join (r_userInput r))
                    = String.length (word (r_currentWord r)))) as [Hlen|Hlen].
  - destruct (decide (join (r_userInput r) = word (r_currentWord r))) as [Heq|Hne].
    + left. unfold handleCheck. rewrite Hl, Heq.
      repeat case_match; try done. by rewrite String.eqb_refl in *.
    + right. by rewrite handleCheck_mismatch.
  - left. unfold handleCheck. rewrite Hl.
    destruct (Nat.eqb_spec (String.length (join (r_userInput r))) 0); [done|].
    by destruct (Nat.eqb_spec (String.length (join (r_userInput r)))
                   (String.length (word (r_currentWord r)))).
Qed.

Lemma handleLetterClick_progress r letter s :
  mistakes (handleLetterClick r letter s) = mistakes s
  ∧ isLocked (handleLetterClick r letter s) = isLocked s
  ∧ showNextPopup (handleLetterClick r letter s) = showNextPopup s.
Proof.
  unfold handleLetterClick. destruct (r_isLocked r); [done|].
  by destruct (String.length (word (r_currentWord r)) <=? length (r_userInput r)).
Qed.

(** The handlers of a render that is not locked and has an empty attempt. *)
Lemma old_render_handlers r s :
  r_isLocked r = false → r_userInput r = [] →
  handleBackspace r s = s ∧ handleClear r s = s
  ∧ handleCheck r s
    = triggerShake
        (setStatus status_error
           (setFeedback {| message := "Fang mit einem Buchstaben an!";
                           tone := tone_error |}
              (playSound errorSound s))).
Proof.
  intros Hl Hin. unfold handleBackspace, handleClear, handleCheck.
  by rewrite Hl, Hin.
Qed.

Lemma handleKeydown_old_render r key s :
  r_isLocked r = true ∨ r_userInput r = [] →
  let s' := handleKeydown r key s in
  mistakes s' = mistakes s ∧ isLocked s' = isLocked s
  ∧ showNextPopup s' = showNextPopup s
  ∧ (key = "Backspace" ∨ key = "Escape" → s' = s)
  ∧ (key = "Enter" →
       userInput s' = userInput s
       ∧ (s' = s
          ∨ s' = triggerShake
                   (setStatus status_error
                      (setFeedback {| message := "Fang mit einem Buchstaben an!";
                                      tone := tone_error |}
                         (playSound errorSound s))))).
Proof.
  intros Hold. simpl.
  destruct (r_isLocked r) eqn:Hl.
  { rewrite handleKeydown_locked by done. repeat split; auto. }
  destruct Hold as [?|Hin]; [done|].
  destruct (old_render_handlers r s Hl Hin) as (Hb & Hc & Hk).
  unfold handleKeydown.
  destruct (String.eqb_spec key "Backspace") as [E1|E1].
  { rewrite Hb. repeat split; auto. }
  destruct (String.eqb_spec key "Enter") as [E2|E2].
  { rewrite Hk. repeat split; auto. intros [?|?]; congruence. }
  destruct (String.eqb_spec key "Escape") as [E3|E3].
  { rewrite Hc. repeat split; auto. }
  destruct (_ && _).
  - destruct (handleLetterClick_progress r (toLowerCase key) s) as (? & ? & ?).
    repeat split; auto; try done. intros [?|?]; done.
  - repeat split; auto.
Qed.

(** X9.  In every state the page can reach, the Backspace key and the
    Escape key change nothing at all, and the Enter key never locks the
    session, never counts a mistake and never changes the attempt: it
    changes nothing, or it reports that a letter is needed, whatever the
    attempt on screen is. *)
Theorem special_keys_are_inert (words : list Word) (w : World) (rnd : nat → nat) :
  reachable words w →
  step words rnd (KeyDown "Backspace") w = w
  ∧ step words rnd (KeyDown "Escape") w = w
  ∧ (let s' := st (step words rnd (KeyDown "Enter") w) in
     isLocked s' = isLocked (st w)
     ∧ mistakes s' = mistakes (st w)
     ∧ userInput s' = userInput (st w)
     ∧ (s' = st w
        ∨ (feedback s' = {| message := "Fang mit einem Buchstaben an!";
                            tone := tone_error |}
           ∧ shake s' = true))).
Proof.
  intros Hr. pose proof (reachable_listener words w Hr) as Hold.
  assert (Hsame : ∀ key, dispatch words (KeyDown key) w = st w →
                         step words rnd (KeyDown key) w = w).
  { intros key Hd. unfold step. rewrite Hd. apply commit_same. }
  destruct (listener w) as [lr|] eqn:Hlr; last first.
  { assert (Hd : ∀ key, dispatch words (KeyDown key) w = st w)
      by (intros key; unfold dispatch; by rewrite Hlr).
    split; [by apply Hsame|]. split; [by apply Hsame|].
    cbv zeta. rewrite Hsame by done. repeat split; auto. }
  specialize (Hold lr eq_refl).
  split; [|split].
  - apply Hsame. unfold dispatch. rewrite Hlr.
    by apply (handleKeydown_old_render lr "Backspace" (st w) Hold); left.
  - apply Hsame. unfold dispatch. rewrite Hlr.
    by apply (handleKeydown_old_render lr "Escape" (st w) Hold); right.
  - cbv zeta.
    destruct (step_not_next words rnd (KeyDown "Enter") w) as (_ & _ & ->);
      [done|].
    unfold dispatch. rewrite Hlr.
    destruct (handleKeydown_old_render lr "Enter" (st w) Hold)
      as (Hm & Hl & _ & _ & He).
    destruct (He eq_refl) as [Hu Hcase].
    do 3 (split; [done|]).
    destruct Hcase as [->| ->]; [by left|by right].
Qed.

Lemma special_keys_are_inert_witness :
  let w := run [hund] sameCell (clicks [0; 1; 2; 3])
             (mount [hund] sameCell sameCell freshStorage) in
  step [hund] sameCell (KeyDown "Backspace") w = w.
Proof.
  intros w.
  assert (Hr : reachable [hund] w) by (apply reachable_run; constructor).
  exact (proj1 (special_keys_are_inert [hund] w sameCell Hr)).
Defined.

(** On two words or more the next-button always lands on another word. *)
Lemma next_changes_word words w :
  reachable words w → showNextPopup (st w) = true → 2 ≤ length words →
  ∃ i, currentIndex (st w) = Int i
       ∧ (0 <= i < total words)%Z
       ∧ dispatch words ClickNext w = handleNext words (st w)
       ∧ wordChanged words (st w) (handleNext words (st w)) = true
       ∧ is_Some (currentWord words (handleNext words (st w)))
       ∧ currentIndex (handleNext words (st w)) = Int ((i + 1) mod total words)
       ∧ currentIndex (handleNext words (st w)) ≠ currentIndex (st w).
Proof.
  intros Hr Hp Hlen.
  assert (Hw : words ≠ []) by (intros ->; simpl in Hlen; lia).
  pose proof (reachable_consistent words w Hr) as Hc.
  destruct (locked_word words w Hc (popup_locked words w Hc Hp)) as [cw Hcw].
  destruct (currentWord_Some words _ _ Hcw) as (i & Hs & Hi & _).
  pose proof (total_pos words Hw) as Hn.
  destruct (handleNext_index words (st w) i Hn Hs) as (Hidx & Hrange & [cw' Hcw']).
  exists i. split; [done|]. split; [done|].
  split.
  { unfold dispatch, render_of. rewrite Hcw. simpl. by rewrite Hp. }
  assert (Hneq : currentIndex (handleNext words (st w)) ≠ currentIndex (st w)).
  { rewrite Hidx, Hs. intros [= Heq]. revert Heq. unfold total in *.
    destruct (Z_lt_le_dec (i + 1) (Z.of_nat (length words))).
    - rewrite Z.mod_small by lia. lia.
    - replace (i + 1)%Z with (Z.of_nat (length words)) by lia.
      rewrite Z.mod_same by lia. lia. }
  split; [|split; [by exists cw' | done]].
  unfold wordChanged. rewrite Hcw, Hcw'.
  by rewrite bool_decide_eq_false_2 by (intros Heq; by apply Hneq).
Qed.

Lemma saveEffect_keeps_available s sto :
  available (saveEffect s sto) = available sto.
Proof.
  unfold saveEffect, setItem. destruct (progressLoaded s); [|done].
  by destruct (available sto) eqn:Hav; simpl.
Qed.

(** X10.  On a dataset of two words or more, once the next-button has
    moved the page to another word, no key press changes anything any
    more, whatever is clicked in between, until the next-button is used
    again: the listener of that word was registered in a render that was
    still locked. *)
Theorem keys_ignored_after_advance
    (words : list Word) (w : World) (rnd : nat → nat)
    (es : list Event) (key : string) :
  reachable words w →
  showNextPopup (st w) = true →
  2 ≤ length words →
  ClickNext ∉ es →
  let w' := run words rnd es (step words rnd ClickNext w) in
  step words rnd (KeyDown key) w' = w'.
Proof.
  intros Hr Hp Hlen Hes w'.
  destruct (next_changes_word words w Hr Hp Hlen)
    as (i & _ & _ & Hd & Hwc & [cw' Hcw'] & _).
  pose proof (popup_locked words w (reachable_consistent words w Hr) Hp) as Hl.
  assert (Hlis : listener w' = Some (renderAt (handleNext words (st w)) cw')).
  { subst w'. destruct (run_not_next words rnd es (step words rnd ClickNext w) Hes)
      as [-> _].
    unfold step, commit. rewrite Hd, Hwc. simpl.
    unfold render_of. by rewrite Hcw'. }
  unfold step at 1. unfold dispatch. rewrite Hlis.
  rewrite handleKeydown_locked; [apply commit_same|].
  simpl. rewrite <- Hd. by apply dispatch_stays_locked.
Qed.

Lemma keys_ignored_after_advance_witness :
  let w := run [hund; katze] sameCell (clicks [0; 1; 2; 3] ++ [ClickCheck])
             (mount [hund; katze] sameCell sameCell freshStorage) in
  let w' := run [hund; katze] sameCell [ClickTile 0]
              (step [hund; katze] sameCell ClickNext w) in
  step [hund; katze] sameCell (KeyDown "a") w' = w'.
Proof.
  intros w.
  assert (Hr : reachable [hund; katze] w) by (apply reachable_run; constructor).
  assert (Hp : showNextPopup (st w) = true) by (vm_compute; reflexivity).
  assert (Hlen : 2 ≤ length [hund; katze]) by (simpl; lia).
  assert (Hes : ClickNext ∉ [ClickTile 0]).
  { intros H. apply list_elem_of_singleton in H. discriminate H. }
  exact (keys_ignored_after_advance [hund; katze] w sameCell [ClickTile 0] "a"
           Hr Hp Hlen Hes).
Defined.

Lemma toLowerCase_length t : String.length (toLowerCase t) = String.length t.
Proof. induction t as [|c t IH]; simpl; [done|]. by rewrite IH. Qed.

(** The listener that mounting leaves when the page has a current word. *)
Lemma mount_listener words rnd1 rnd2 sto :
  is_Some (currentWord words (st (mount words rnd1 rnd2 sto))) →
  ∃ lr, listener (mount words rnd1 rnd2 sto) = Some lr
        ∧ r_isLocked lr = false ∧ r_userInput lr = [].
Proof.
  destruct (first_effects_session words rnd1 sto) as (Hu & Hl & _).
  unfold mount.
  set (s1 := shuffleEffect rnd1 _ _) in *.
  unfold commit. simpl.
  destruct (wordChanged words (initialState words) s1) eqn:Hwc; simpl.
  - intros [cw Hcw].
    assert (Hcw1 : currentWord words s1 = Some cw).
    { rewrite <- Hcw. symmetry. apply currentWord_same_index.
      by destruct (currentWord words s1). }
    unfold render_of. rewrite Hcw1. simpl. eexists. split; [done|]. by simpl.
  - intros [cw Hcw]. apply wordChanged_false in Hwc.
    unfold render_of. rewrite <- Hwc, Hcw. simpl.
    eexists. split; [done|]. by simpl.
Qed.

(** X11.  On the word the page mounted on, for as long as the next-button
    has not been used: a key whose lowercase form is one code unit long
    and belongs to the lowercase letters of the word is appended in that
    form at every press, whether or not the attempt has reached the
    target's length and whether or not the session is locked (the target
    spelling being non-empty). *)
Theorem typed_letters_pass_any_length
    (words : list Word) (rnd1 rnd2 rnd : nat → nat) (sto : Storage)
    (es : list Event) (cw : Word) (key : string) :
  ClickNext ∉ es →
  let w := run words rnd es (mount words rnd1 rnd2 sto) in
  currentWord words (st w) = Some cw →
  word cw ≠ EmptyString →
  String.length (toLowerCase key) = 1 →
  toLowerCase key ∈ allowedLetters cw →
  userInput (st (step words rnd (KeyDown key) w))
  = userInput (st w) ++ [toLowerCase key].
Proof.
  intros Hes w Hcw Hne Hlen Hin.
  destruct (run_not_next words rnd es (mount words rnd1 rnd2 sto) Hes)
    as [Hsame Hidx].
  fold w in Hsame, Hidx.
  destruct (mount_listener words rnd1 rnd2 sto) as (lr & Hlr & Hl & Hu).
  { exists cw. rewrite <- Hcw. symmetry. by apply currentWord_same_index. }
  assert (Hlis : listener w = Some lr) by (by rewrite Hsame).
  assert (Hr : reachable words w) by (apply reachable_run; constructor).
  pose proof (listener_current words w (reachable_consistent words w Hr) lr Hlis)
    as Hcur.
  rewrite Hcw in Hcur. injection Hcur as Hcur.
  destruct (step_not_next words rnd (KeyDown key) w) as (_ & _ & ->); [done|].
  unfold dispatch. rewrite Hlis. unfold handleKeydown.
  assert (Hkey : ∀ name, String.length name ≠ 1 → String.eqb key name = false).
  { intros name Hn. apply String.eqb_neq. intros ->.
    by rewrite toLowerCase_length in Hlen. }
  rewrite !Hkey by (simpl; lia).
  rewrite Hlen, <- Hcur. simpl. rewrite bool_decide_eq_true_2 by done.
  unfold handleLetterClick. rewrite Hl, Hu, <- Hcur.
  destruct (Nat.leb_spec (String.length (word cw)) (length (@nil string)))
    as [Hle|_]; [|done].
  simpl in Hle. apply Nat.le_0_r, length_zero_empty in Hle. done.
Qed.

Lemma typed_letters_pass_any_length_witness :
  let w := run [hund] sameCell (clicks [0; 1; 2; 3] ++ [ClickCheck])
             (mount [hund] sameCell sameCell freshStorage) in
  userInput (st (step [hund] sameCell (KeyDown "H") w))
  = ["h"; "u"; "n"; "d"; "h"].
Proof.
  intros w.
  assert (Hes : ClickNext ∉ clicks [0; 1; 2; 3] ++ [ClickCheck]).
  { intros H. simpl in H. repeat (apply elem_of_cons in H as [H|H]; [discriminate H|]).
    by apply elem_of_nil in H. }
  assert (Hin : toLowerCase "H" ∈ allowedLetters hund).
  { apply elem_of_allowedLetters. exists "h". split; [|reflexivity].
    apply list_elem_of_In. simpl. auto. }
  assert (Hne : word hund ≠ EmptyString) by discriminate.
  exact (typed_letters_pass_any_length [hund] sameCell sameCell sameCell
           freshStorage (clicks [0; 1; 2; 3] ++ [ClickCheck]) hund "H"
           Hes eq_refl Hne eq_refl Hin).
Defined.

(** ** The mistake counters, the lock and the session *)

(** X12.  In every state the page can reach, one event leaves the mistake
    record as it is, or it is a click on the check button in a session
    that is not locked, with an attempt of the target's length that is not
    the target; and then the record changes at the id of the current word
    only, where it becomes [(prev[id] ?? 0) + 1]: one more than an integer
    below 2^53 it held there, and 1 where the record neither had nor
    inherits a property of that name.  No key press ever counts a
    mistake. *)
Theorem counters_change_by_check_button_only
    (words : list Word) (w : World) (rnd : nat → nat) (e : Event) :
  reachable words w →
  let s' := st (step words rnd e w) in
  mistakes s' = mistakes (st w)
  ∨ (e = ClickCheck ∧ isLocked (st w) = false
     ∧ ∃ cw, currentWord words (st w) = Some cw
             ∧ String.length (join (userInput (st w))) = String.length (word cw)
             ∧ join (userInput (st w)) ≠ word cw
             ∧ mistakes s'
               = <[id cw := plusOne (getProperty (mistakes (st w)) (id cw))]>
                   (mistakes (st w))
             ∧ (∀ c, (Z.abs c < 2 ^ 53)%Z →
                     mistakes (st w) !! id cw = Some (VNumber (Int c)) →
                     mistakes s' !! id cw = Some (VNumber (Int (c + 1))))
             ∧ (mistakes (st w) !! id cw = None → id cw ∉ objectPrototype →
                mistakes s' !! id cw = Some (VNumber (Int 1)))
             ∧ (∀ k, k ≠ id cw → mistakes s' !! k = mistakes (st w) !! k)).
Proof.
  intros Hr s'. subst s'. unfold step.
  destruct (commit_progress words rnd w (dispatch words e w)) as [_ ->].
  pose proof (reachable_listener words w Hr) as Hold.
  destruct e as [i| | | | |key| | | | | |].
  3:{ unfold dispatch, render_of.
      destruct (currentWord words (st w)) as [cw|] eqn:Hcw; simpl; [|by left].
      destruct (handleCheck_mistakes (renderAt (st w) cw) (st w))
        as [H|(Hl & Hlen & Hne & Hm)]; [by left|].
      right. split; [done|]. split; [done|]. exists cw.
      do 3 (split; [done|]). simpl in Hm. rewrite Hm. split; [done|].
      destruct (plusOne_counts (mistakes (st w)) (id cw)) as (Hnum & Hnone & _).
      split; [by intros c _ Hc; rewrite lookup_insert_eq, (Hnum c Hc)|].
      split; [by intros Hc Hk; rewrite lookup_insert_eq, (Hnone Hc Hk)|].
      by intros k Hk; rewrite lookup_insert_ne. }
  5:{ left. unfold dispatch. destruct (listener w) as [lr|] eqn:Hlr; [|done].
      by apply (handleKeydown_old_render lr key (st w) (Hold lr eq_refl)). }
  all: left; unfold dispatch, render_of;
    destruct (currentWord words (st w)); simpl; try done.
  - case_match; [|done]. apply handleLetterClick_progress.
  - unfold handleBackspace. by case_match.
  - unfold handleClear. by case_match.
  - unfold handleNext. by repeat case_match.
  - unfold handleAnimationEnd. by case_match.
  - unfold handleAudioClick. by repeat case_match.
Qed.

Lemma counters_change_by_check_button_only_witness :
  let w := run [hund] sameCell (clicks [3; 2; 1; 0])
             (mount [hund] sameCell sameCell freshStorage) in
  mistakes (st (step [hund] sameCell (KeyDown "Enter") w)) = mistakes (st w).
Proof.
  intros w.
  assert (Hr : reachable [hund] w) by (apply reachable_run; constructor).
  destruct (counters_change_by_check_button_only [hund] w sameCell
              (KeyDown "Enter") Hr) as [H|(H & _)].
  - exact H.
  - discriminate H.
Defined.

(** X13.  A locked session stays locked under every event that does not
    change the current word.  On a dataset of one word the current word
    never changes, so there a locked session stays locked under every
    event, the next-button included, and the index stays 0. *)
Theorem lock_released_only_by_word_change
    (words : list Word) (w : World) (rnd : nat → nat) (e : Event) :
  reachable words w →
  isLocked (st w) = true →
  (wordChanged words (st w) (dispatch words e w) = false →
     isLocked (st (step words rnd e w)) = true)
  ∧ (length words = 1 →
       isLocked (st (step words rnd e w)) = true
       ∧ currentIndex (st (step words rnd e w)) = Int 0
       ∧ userInput (st (step words rnd e w)) = userInput (dispatch words e w)).
Proof.
  intros Hr Hl.
  assert (Hkeep : wordChanged words (st w) (dispatch words e w) = false →
                  st (step words rnd e w) = dispatch words e w).
  { intros Hwc. unfold step, commit. by rewrite Hwc. }
  split.
  { intros Hwc. rewrite (Hkeep Hwc). by apply dispatch_stays_locked. }
  intros Hone.
  assert (Hw : words ≠ []) by (intros ->; simpl in Hone; lia).
  destruct (locked_word words w (reachable_consistent words w Hr) Hl) as [cw Hcw].
  destruct (currentWord_Some words _ _ Hcw) as (i & Hs & Hi & _).
  unfold total in Hi. rewrite Hone in Hi.
  assert (Hi0 : i = 0%Z) by lia. subst i.
  assert (Hidx : currentIndex (dispatch words e w) = currentIndex (st w)).
  { destruct (dispatch_cases words e w) as [(? & _)|(_ & _ & _ & ->)]; [done|].
    rewrite handleNext_nonempty by done. simpl. rewrite Hs. simpl.
    rewrite normalizeIndex_mod by (unfold total; lia).
    unfold total. by rewrite Hone. }
  rewrite (Hkeep (wordChanged_same_index words _ _ Hidx)).
  split; [by apply dispatch_stays_locked|]. split; [|done].
  by rewrite Hidx.
Qed.

Lemma lock_released_only_by_word_change_witness :
  let w := run [hund] sameCell (clicks [0; 1; 2; 3] ++ [ClickCheck])
             (mount [hund] sameCell sameCell freshStorage) in
  isLocked (st (step [hund] sameCell ClickNext w)) = true.
Proof.
  intros w.
  assert (Hr : reachable [hund] w) by (apply reachable_run; constructor).
  assert (Hl : isLocked (st w) = true) by (vm_compute; reflexivity).
  exact (proj1 (proj2 (lock_released_only_by_word_change [hund] w sameCell
                         ClickNext Hr Hl) eq_refl)).
Defined.

(** X14.  On a dataset of two words or more, a click on the shown
    next-button starts the next word afresh: the index moves on by one
    (wrapping), the attempt is empty, the session unlocked and idle, no
    feedback, no shake, the popup hidden, the audio available, the tiles a
    new shuffle of the new word's letters; the mistake map is kept, and a
    working storage holds the new index with it. *)
Theorem next_button_starts_next_word
    (words : list Word) (w : World) (rnd : nat → nat) :
  reachable words w →
  showNextPopup (st w) = true →
  2 ≤ length words →
  let s' := st (step words rnd ClickNext w) in
  (∃ i, currentIndex (st w) = Int i ∧ (0 <= i < total words)%Z
        ∧ currentIndex s' = Int ((i + 1) mod total words))
  ∧ currentIndex s' ≠ currentIndex (st w)
  ∧ userInput s' = [] ∧ isLocked s' = false
  ∧ status s' = status_idle ∧ feedback s' = noFeedback
  ∧ shake s' = false ∧ showNextPopup s' = false
  ∧ audioAvailable s' = true ∧ isAudioBusy s' = false
  ∧ mistakes s' = mistakes (st w)
  ∧ (∃ cw, currentWord words s' = Some cw
           ∧ shuffledLetters s' = shuffleArray rnd (letters cw))
  ∧ (available (storage w) = true →
       item (storage (step words rnd ClickNext w))
       = Some (JSON_stringify (currentIndex s') (mistakes s'))).
Proof.
  intros Hr Hp Hlen s'.
  destruct (next_changes_word words w Hr Hp Hlen)
    as (i & Hcur & Hi & Hd & Hwc & [cw' Hcw'] & Hidx & Hne).
  assert (Hw : words ≠ []) by (intros ->; simpl in Hlen; lia).
  assert (Hs : s' = shuffleEffect rnd (Some cw')
                      (resetEffect (Some cw') (handleNext words (st w)))).
  { subst s'. unfold step, commit. by rewrite Hd, Hwc, Hcw'. }
  rewrite Hs. simpl.
  split; [by exists i|]. split; [done|]. do 8 (split; [done|]).
  split; [by rewrite handleNext_nonempty|].
  split.
  { exists cw'. split; [|done]. rewrite <- Hcw'. by apply currentWord_same_index. }
  intros Hav.
  pose proof (step_consistent words rnd ClickNext w
                (reachable_consistent words w Hr)) as Hc.
  pose proof (progress_stored words _ Hc Hw) as Hsto.
  fold s' in Hsto. rewrite Hs in Hsto. simpl in Hsto. apply Hsto.
  unfold step, commit. rewrite Hd, Hwc. simpl.
  case_match; [|done]. by rewrite saveEffect_keeps_available.
Qed.

Lemma next_button_starts_next_word_witness :
  let w := run [hund; katze] sameCell (clicks [0; 1; 2; 3] ++ [ClickCheck])
             (mount [hund; katze] sameCell sameCell freshStorage) in
  currentIndex (st (step [hund; katze] firstCell ClickNext w))
  ≠ currentIndex (st w)
  ∧ userInput (st (step [hund; katze] firstCell ClickNext w)) = [].
Proof.
  intros w.
  assert (Hr : reachable [hund; katze] w) by (apply reachable_run; constructor).
  assert (Hp : showNextPopup (st w) = true) by (vm_compute; reflexivity).
  assert (Hlen : 2 ≤ length [hund; katze]) by (simpl; lia).
  destruct (next_button_starts_next_word [hund; katze] w firstCell Hr Hp Hlen)
    as (_ & H2 & H3 & _).
  split; [exact H2 | exact H3].
Defined.

(** ** Storage, index and the empty dataset *)

Lemma commit_available words rnd w next :
  available (storage (commit words rnd w next)) = available (storage w)
  ∧ (available (storage w) = false →
     storage (commit words rnd w next) = storage w).
Proof.
  unfold commit.
  assert (H : ∀ sto, available (saveEffect next sto) = available sto
                     ∧ (available sto = false → saveEffect next sto = sto)).
  { intros sto. split; [apply saveEffect_keeps_available|].
    intros Hav. unfold saveEffect, setItem. rewrite Hav. by case_match. }
  destruct (H (storage w)) as [H1 H2].
  by repeat case_match; simpl.
Qed.

Lemma run_available words rnd es w :
  available (storage (run words rnd es w)) = available (storage w)
  ∧ (available (storage w) = false → storage (run words rnd es w) = storage w).
Proof.
  revert w. induction es as [|e es IH]; intros w; simpl; [done|].
  destruct (IH (step words rnd e w)) as [-> H2].
  destruct (commit_available words rnd w (dispatch words e w)) as [H3 H4].
  fold (step words rnd e w) in H3, H4.
  split; [done|].
  intros Hav. rewrite H2; [by apply H4|]. by rewrite H3.
Qed.

(** X15.  On a dataset that is not empty, after mounting and any events:
    a storage that works holds exactly the current index and the current
    mistake map, at every moment, as [JSON.stringify] writes them (the
    two themselves, unless a number among them is [NaN] or an infinity);
    a storage that throws is left as it was found. *)
Theorem storage_mirrors_progress
    (words : list Word) (rnd1 rnd2 rnd : nat → nat) (sto : Storage)
    (es : list Event) :
  words ≠ [] →
  let w := run words rnd es (mount words rnd1 rnd2 sto) in
  (available sto = true →
     item (storage w)
     = Some (JSON_stringify (currentIndex (st w)) (mistakes (st w))))
  ∧ (available sto = true →
     finite (currentIndex (st w)) ≠ None → storable (mistakes (st w)) →
     item (storage w)
     = Some (JsonText (ParsedRecord (IndexNumber (currentIndex (st w)))
                         (Some (mistakes (st w))))))
  ∧ (available sto = false → storage w = sto).
Proof.
  intros Hw w.
  assert (Hr : reachable words w) by (apply reachable_run; constructor).
  destruct (run_available words rnd es (mount words rnd1 rnd2 sto)) as [Ha Hb].
  destruct (commit_available words rnd2
    {| st := initialState words;
       listener := render_of words (initialState words);
       storage := sto |}
    (shuffleEffect rnd1 (currentWord words (initialState words))
       (resetEffect (currentWord words (initialState words))
          (loadEffect words sto (initialState words))))) as [Hc Hd].
  fold (mount words rnd1 rnd2 sto) in Hc, Hd. simpl in Hc, Hd.
  assert (Hmirror : available sto = true →
            item (storage w)
            = Some (JSON_stringify (currentIndex (st w)) (mistakes (st w)))).
  { intros Hav.
    apply (progress_stored words w (reachable_consistent words w Hr) Hw).
    subst w. by rewrite Ha, Hc. }
  split; [done|]. split.
  - intros Hav Hfin Hst. rewrite (Hmirror Hav). unfold JSON_stringify.
    rewrite Hst. by destruct (currentIndex (st w)).
  - intros Hav. subst w. rewrite Hb; [by apply Hd|]. by rewrite Hc.
Qed.

Lemma storage_mirrors_progress_witness :
  let w := run [hund] sameCell (clicks [3; 2; 1; 0] ++ [ClickCheck])
             (mount [hund] sameCell sameCell freshStorage) in
  item (storage w)
  = Some (JSON_stringify (currentIndex (st w)) (mistakes (st w))).
Proof.
  intros w.
  assert (Hw : [hund] ≠ []) by discriminate.
  exact (proj1 (storage_mirrors_progress [hund] sameCell sameCell sameCell
                  freshStorage (clicks [3; 2; 1; 0] ++ [ClickCheck]) Hw) eq_refl).
Defined.

(** A page with a current word keeps one under every event. *)
Lemma step_keeps_word words rnd e w :
  is_Some (currentWord words (st w)) →
  is_Some (currentWord words (st (step words rnd e w))).
Proof.
  intros [cw Hcw]. unfold step.
  assert (Hidx : ∀ next, currentWord words (st (commit words rnd w next))
                         = currentWord words next).
  { intros next. apply currentWord_same_index.
    by destruct (commit_progress words rnd w next). }
  rewrite Hidx.
  destruct (dispatch_cases words e w) as [(Hi & _)|(_ & _ & _ & ->)].
  - rewrite (currentWord_same_index words _ _ Hi). by exists cw.
  - destruct (currentWord_Some words _ _ Hcw) as (i & Hs & Hi & _).
    assert (Hn : (0 < total words)%Z) by lia.
    by destruct (handleNext_index words (st w) i Hn Hs) as (_ & _ & ?).
Qed.

(** A page without a current word does not change. *)
Lemma step_frozen words rnd e w :
  Consistent words w → currentWord words (st w) = None →
  step words rnd e w = w.
Proof.
  intros Hc Hcw. unfold step. rewrite dispatch_frozen; [apply commit_same|done|].
  destruct (listener w) as [lr|] eqn:Hlr; [|done].
  pose proof (listener_current words w Hc lr Hlr). congruence.
Qed.

(** The index that the loading effect leaves. *)
Lemma loadEffect_index words sto s0 :
  words ≠ [] →
  currentIndex (loadEffect words sto s0) = currentIndex s0
  ∨ currentIndex (loadEffect words sto s0) = Int 0
  ∨ ∃ x m, available sto = true
           ∧ item sto = Some (JsonText (ParsedRecord (IndexNumber x) m))
           ∧ currentIndex (loadEffect words sto s0)
             = normalizeIndex x (Int (total words)).
Proof.
  intros Hw. pose proof (total_pos words Hw) as Hn.
  unfold loadEffect, loadBody, getItem.
  destruct words as [|w0 ws]; [done|]. simpl.
  destruct (available sto); [|by left].
  destruct (item sto) as [[| |[|[|x|] m]]|] eqn:Hit; simpl; try by left.
  - right. left. by rewrite normalizeIndex_mod.
  - right. right. by exists x, m.
Qed.

Lemma mount_index words rnd1 rnd2 sto :
  currentIndex (st (mount words rnd1 rnd2 sto))
  = currentIndex (loadEffect words sto (initialState words)).
Proof.
  unfold mount.
  destruct (commit_progress words rnd2
    {| st := initialState words;
       listener := render_of words (initialState words);
       storage := sto |}
    (shuffleEffect rnd1 (currentWord words (initialState words))
       (resetEffect (currentWord words (initialState words))
          (loadEffect words sto (initialState words))))) as [-> _].
  by destruct (currentWord words (initialState words)).
Qed.

(** X16.  On a dataset that is not empty the progress is marked as loaded
    at every moment.  A page that has a current word after mounting has
    one at every later moment, at an integer index within the dataset; a
    page that has none after mounting never changes, whatever the events.
    The page has a current word after mounting whenever the stored index,
    if the loading effect comes to read one as a number, is an integer. *)
Theorem current_word_always_exists
    (words : list Word) (rnd1 rnd2 rnd : nat → nat) (sto : Storage)
    (es : list Event) :
  words ≠ [] →
  let w0 := mount words rnd1 rnd2 sto in
  let w := run words rnd es w0 in
  progressLoaded (st w) = true
  ∧ (is_Some (currentWord words (st w0)) →
       ∃ i cw, currentIndex (st w) = Int i ∧ (0 <= i < total words)%Z
               ∧ currentWord words (st w) = Some cw
               ∧ words !! Z.to_nat i = Some cw)
  ∧ (currentWord words (st w0) = None → w = w0)
  ∧ (integerIndex sto → is_Some (currentWord words (st w0))).
Proof.
  intros Hw w0 w.
  assert (Hr : reachable words w) by (apply reachable_run; constructor).
  split; [by apply (progress_loaded words w (reachable_consistent words w Hr))|].
  split; [|split].
  - intros Hsome.
    assert (Hlive : is_Some (currentWord words (st w))).
    { subst w. revert Hsome. generalize w0. clear.
      induction es as [|e es IH]; intros v Hv; simpl; [done|].
      apply IH. by apply step_keeps_word. }
    destruct Hlive as [cw Hcw].
    destruct (currentWord_Some words _ _ Hcw) as (i & Hs & Hi & Hel).
    by exists i, cw.
  - intros Hnone. subst w.
    assert (Hc0 : Consistent words w0) by apply mount_consistent.
    clear Hr. induction es as [|e es IH]; simpl; [done|].
    by rewrite step_frozen.
  - intros Hint. pose proof (total_pos words Hw) as Hn.
    assert (Hvalid : ∃ i, currentIndex (st w0) = Int i ∧ (0 <= i < total words)%Z).
    { subst w0. rewrite mount_index.
      destruct (loadEffect_index words sto (initialState words) Hw)
        as [->|[->|(x & m & Hav & Hit & ->)]].
      - exists 0%Z. split; [done|lia].
      - exists 0%Z. split; [done|lia].
      - destruct (Hint x m Hav Hit) as [i ->]. exists (i mod total words)%Z.
        split; [by apply normalizeIndex_mod|]. apply Z.mod_pos_bound. lia. }
    destruct Hvalid as (i & Hs & Hi). by eapply currentWord_valid.
Qed.

Lemma current_word_always_exists_witness :
  let words := [hund; katze] in
  let w := run words sameCell (clicks [0; 1; 2; 3] ++ [ClickCheck; ClickNext])
             (mount words sameCell sameCell freshStorage) in
  ∃ i cw, currentIndex (st w) = Int i ∧ (0 <= i < total words)%Z
          ∧ currentWord words (st w) = Some cw
          ∧ words !! Z.to_nat i = Some cw.
Proof.
  intros words w.
  assert (Hw : words ≠ []) by discriminate.
  destruct (current_word_always_exists words sameCell sameCell sameCell
              freshStorage (clicks [0; 1; 2; 3] ++ [ClickCheck; ClickNext]) Hw)
    as (_ & Hlive & _ & Hfirst).
  apply Hlive, Hfirst. intros x m _ Hit. discriminate Hit.
Defined.

(** X17.  On the empty dataset the page mounts without a current word and
    without a listener that acts; the stored progress is neither read nor
    written, the progress is never marked as loaded, and no sequence of
    events changes anything. *)
Theorem empty_dataset_is_inert
    (rnd1 rnd2 rnd : nat → nat) (sto : Storage) (es : list Event) :
  let w0 := mount [] rnd1 rnd2 sto in
  run [] rnd es w0 = w0
  ∧ currentWord [] (st w0) = None
  ∧ listener w0 = None
  ∧ storage w0 = sto
  ∧ progressLoaded (st w0) = false
  ∧ currentIndex (st w0) = Int 0 ∧ mistakes (st w0) = ∅.
Proof.
  intros w0. split; [|by repeat split].
  assert (Hstep : ∀ e, step [] rnd e w0 = w0).
  { intros e. unfold step.
    assert (Hd : dispatch [] e w0 = st w0) by (by destruct e).
    rewrite Hd. apply commit_same. }
  induction es as [|e es IH]; simpl; [done|]. by rewrite Hstep.
Qed.

(** ** The audio button *)

(** No handler makes the audio available again. *)
Lemma dispatch_stays_unavailable words e w :
  audioAvailable (st w) = false → audioAvailable (dispatch words e w) = false.
Proof.
  intros Hl. unfold dispatch, render_of, handleKeydown, handleBackspace,
    handleCheck, handleClear, handleLetterClick, handleNext,
    handleAnimationEnd, handleAudioClick, audioUnavailable, audioStopped.
  destruct e; repeat case_match; simpl; done.
Qed.

(** X18.  With a current word on the page: a failed playback (the
    rejected promise or the error event of the audio element) marks the
    audio as unavailable and not busy and shows the audio message.  While
    the audio is unavailable, a click on the audio button changes nothing,
    and the audio stays unavailable under every event that does not
    change the current word. *)
Theorem audio_stays_unavailable
    (words : list Word) (w : World) (rnd : nat → nat) (cw : Word) :
  currentWord words (st w) = Some cw →
  (∀ e, e = AudioRejected ∨ e = AudioFailed →
        let s' := st (step words rnd e w) in
        audioAvailable s' = false ∧ isAudioBusy s' = false
        ∧ feedback s' = audioMissing
        ∧ userInput s' = userInput (st w) ∧ isLocked s' = isLocked (st w))
  ∧ (audioAvailable (st w) = false →
       step words rnd AudioClick w = w
       ∧ ∀ e, wordChanged words (st w) (dispatch words e w) = false →
              audioAvailable (st (step words rnd e w)) = false).
Proof.
  intros Hcw. split.
  - intros e He s'. subst s'.
    destruct (step_not_next words rnd e w) as (_ & _ & ->);
      [by destruct He as [-> | ->]|].
    unfold dispatch, render_of. rewrite Hcw.
    by destruct He as [-> | ->].
  - intros Hav. split.
    + unfold step.
      assert (Hd : dispatch words AudioClick w = st w).
      { unfold dispatch, render_of, handleAudioClick. rewrite Hcw, Hav. simpl.
        by case_match. }
      rewrite Hd. apply commit_same.
    + intros e Hwc. unfold step, commit. rewrite Hwc. simpl.
      by apply dispatch_stays_unavailable.
Qed.

Lemma audio_stays_unavailable_witness :
  let w := step [hund] sameCell AudioFailed
             (mount [hund] sameCell sameCell freshStorage) in
  step [hund] sameCell AudioClick w = w.
Proof.
  intros w.
  exact (proj1 (proj2 (audio_stays_unavailable [hund] w sameCell hund eq_refl)
                 eq_refl)).
Defined.

(** ** Sessions driven by the buttons alone *)

Lemma handleCheck_lock r s :
  isLocked (handleCheck r s) = true →
  isLocked s = true ∨ join (r_userInput r) = word (r_currentWord r).
Proof.
  unfold handleCheck.
  destruct (r_isLocked r); [by left|].
  destruct (String.length (join (r_userInput r)) =? 0); [by left|].
  destruct (negb _); [by left|].
  destruct (String.eqb_spec (join (r_userInput r)) (word (r_currentWord r)));
    [by right|by left].
Qed.

Lemma mount_session words rnd1 rnd2 sto :
  userInput (st (mount words rnd1 rnd2 sto)) = []
  ∧ isLocked (st (mount words rnd1 rnd2 sto)) = false.
Proof.
  destruct (first_effects_session words rnd1 sto) as (Hu & Hl & _).
  unfold mount, commit.
  set (s1 := shuffleEffect rnd1 _ _) in *.
  case_match; simpl; [|done].
  by destruct (currentWord words s1); simpl.
Qed.

(** What one event that is not a key press keeps: the attempt within the
    target's length, and a locked session on the solved word. *)
Lemma buttons_keep_bounds words rnd e w :
  (∀ key, e ≠ KeyDown key) →
  (∀ cw, currentWord words (st w) = Some cw →
         length (userInput (st w)) ≤ String.length (word cw)
         ∧ (isLocked (st w) = true → join (userInput (st w)) = word cw)) →
  ∀ cw, currentWord words (st (step words rnd e w)) = Some cw →
        length (userInput (st (step words rnd e w))) ≤ String.length (word cw)
        ∧ (isLocked (st (step words rnd e w)) = true →
           join (userInput (st (step words rnd e w))) = word cw).
Proof.
  intros Hkey Hq cw. unfold step, commit.
  destruct (wordChanged words (st w) (dispatch words e w)) eqn:Hwc; simpl.
  { destruct (currentWord words (dispatch words e w)) as [cw'|] eqn:Hcw'; simpl.
    - intros _. split; [lia|done].
    - unfold currentWord in *. simpl. by rewrite Hcw'. }
  rewrite (wordChanged_false words _ _ Hwc). intros Hcw.
  destruct (Hq cw Hcw) as [Hlen Hlock].
  unfold dispatch, render_of. rewrite Hcw. simpl.
  destruct e as [i| | | | |key| | | | | |]; simpl; try done.
  - destruct (shuffledLetters (st w) !! i) as [a|]; [|done].
    destruct (handleLetterClick_progress (renderAt (st w) cw) a (st w))
      as (_ & Hl & _). rewrite Hl.
    destruct (handleLetterClick_attempt (renderAt (st w) cw) a (st w))
      as [->|(Hu & Hroom & ->)]; [done|].
    simpl in Hu, Hroom. rewrite length_app. simpl.
    split; [lia|]. by rewrite Hu.
  - unfold handleBackspace. simpl.
    destruct (isLocked (st w)) eqn:Hl; simpl; [by rewrite Hl|].
    case_match; simpl; rewrite ?Hl; [done|].
    split; [|done]. rewrite length_take. lia.
  - rewrite handleCheck_attempt. split; [done|].
    intros Hl. apply handleCheck_lock in Hl as [Hl|Hl]; auto.
  - unfold handleClear. simpl.
    destruct (isLocked (st w)) eqn:Hl; simpl; [by rewrite Hl|].
    case_match; simpl; rewrite ?Hl; [done|]. split; [lia|done].
  - case_match; [|done]. unfold handleNext. by case_match.
  - by destruct (Hkey key).
  - unfold handleAnimationEnd. by case_match.
  - unfold handleAudioClick. by repeat case_match.
Qed.

(** X19.  As long as no key is pressed, after mounting and any clicks
    (tiles, buttons, next-button) and audio events: the attempt never has
    more letters than the target has code units, and a locked session
    always holds an attempt that spells the target. *)
Theorem buttons_keep_attempt_in_bounds
    (words : list Word) (rnd1 rnd2 rnd : nat → nat) (sto : Storage)
    (es : list Event) (cw : Word) :
  Forall (λ e, ∀ key, e ≠ KeyDown key) es →
  let w := run words rnd es (mount words rnd1 rnd2 sto) in
  currentWord words (st w) = Some cw →
  length (userInput (st w)) ≤ String.length (word cw)
  ∧ (isLocked (st w) = true → join (userInput (st w)) = word cw).
Proof.
  intros Hes w. subst w. revert cw.
  assert (Hq0 : ∀ cw, currentWord words (st (mount words rnd1 rnd2 sto)) = Some cw →
                  length (userInput (st (mount words rnd1 rnd2 sto)))
                  ≤ String.length (word cw)
                  ∧ (isLocked (st (mount words rnd1 rnd2 sto)) = true →
                     join (userInput (st (mount words rnd1 rnd2 sto))) = word cw)).
  { intros cw _. destruct (mount_session words rnd1 rnd2 sto) as [-> ->].
    split; [simpl; lia|done]. }
  revert Hq0. generalize (mount words rnd1 rnd2 sto).
  induction Hes as [|e es He Hes IH]; intros w Hq; simpl; [done|].
  apply IH. by apply buttons_keep_bounds.
Qed.

Lemma buttons_keep_attempt_in_bounds_witness :
  let w := run [hund] sameCell (clicks [0; 0; 0; 0; 0; 0])
             (mount [hund] sameCell sameCell freshStorage) in
  length (userInput (st w)) ≤ String.length (word hund).
Proof.
  intros w.
  assert (Hes : Forall (λ e, ∀ key, e ≠ KeyDown key) (clicks [0; 0; 0; 0; 0; 0])).
  { simpl. repeat constructor; intros key H; discriminate H. }
  exact (proj1 (buttons_keep_attempt_in_bounds [hund] sameCell sameCell sameCell
                  freshStorage (clicks [0; 0; 0; 0; 0; 0]) hund Hes eq_refl)).
Defined.

(** ** Mounting *)

Lemma loadEffect_display words sto s :
  status (loadEffect words sto s) = status s
  ∧ feedback (loadEffect words sto s) = feedback s
  ∧ shake (loadEffect words sto s) = shake s
  ∧ played (loadEffect words sto s) = played s.
Proof.
  unfold loadEffect, loadBody, getItem.
  repeat case_match; simplify_eq; by simpl.
Qed.

(** X20.  Whatever the storage holds, the mounted page shows a fresh
    session: empty attempt, not locked, idle, no feedback, no shake, no
    popup, no sound played; and when there is a current word, the tiles
    are a shuffle of its letters, under the draws of the first or of the
    second render. *)
Theorem mount_starts_fresh_session
    (words : list Word) (rnd1 rnd2 : nat → nat) (sto : Storage) :
  let s := st (mount words rnd1 rnd2 sto) in
  userInput s = [] ∧ isLocked s = false ∧ showNextPopup s = false
  ∧ status s = status_idle ∧ feedback s = noFeedback ∧ shake s = false
  ∧ played s = []
  ∧ ∀ cw, currentWord words s = Some cw →
          shuffledLetters s = shuffleArray rnd1 (letters cw)
          ∨ shuffledLetters s = shuffleArray rnd2 (letters cw).
Proof.
  destruct (loadEffect_session words sto (initialState words)) as (Hu & Hl & Hp & _).
  destruct (loadEffect_display words sto (initialState words)) as (Hs & Hf & Hsh & Hpl).
  unfold mount, commit.
  set (s1 := shuffleEffect rnd1 (currentWord words (initialState words))
               (resetEffect (currentWord words (initialState words))
                  (loadEffect words sto (initialState words)))).
  assert (H1 : userInput s1 = [] ∧ isLocked s1 = false ∧ showNextPopup s1 = false
               ∧ status s1 = status_idle ∧ feedback s1 = noFeedback
               ∧ shake s1 = false ∧ played s1 = []).
  { subst s1. destruct (currentWord words (initialState words)); simpl;
      rewrite ?Hu, ?Hl, ?Hp, ?Hs, ?Hf, ?Hsh, ?Hpl; by repeat split. }
  destruct H1 as (Hu1 & Hl1 & Hp1 & Hs1 & Hf1 & Hsh1 & Hpl1).
  simpl. destruct (wordChanged words (initialState words) s1) eqn:Hwc; simpl.
  - destruct (currentWord words s1) as [cw1|] eqn:Hcw1; simpl.
    + do 7 (split; [done|]).
      intros cw. unfold currentWord in *. simpl. rewrite Hcw1.
      intros [= <-]. by right.
    + do 7 (split; [done|]).
      intros cw. unfold currentWord in *. simpl. by rewrite Hcw1.
  - do 7 (split; [done|]).
    intros cw Hcw. left. apply wordChanged_false in Hwc. rewrite Hwc in Hcw.
    subst s1. rewrite Hcw. done.
Qed.

(** ** Buttons and their handlers *)

(** X21.  A click on a button that the page shows as disabled (tile,
    backspace, check, clear) changes nothing.  Of the enabled buttons,
    backspace removes one letter, clear empties a non-empty attempt, and
    check always answers with a sound; an enabled tile can still leave
    the state as it is, namely when the attempt is full and the shake cue
    is already raised, and only then. *)
Theorem disabled_buttons_do_nothing
    (words : list Word) (w : World) (cw : Word) (rnd : nat → nat) :
  currentWord words (st w) = Some cw →
  let s := st w in
  (tileDisabled s = true → ∀ i, step words rnd (ClickTile i) w = w)
  ∧ (backspaceDisabled s = true → step words rnd ClickBackspace w = w)
  ∧ (checkDisabled s = true → step words rnd ClickCheck w = w)
  ∧ (clearDisabled s = true → step words rnd ClickClear w = w)
  ∧ (backspaceDisabled s = false →
       S (length (userInput (st (step words rnd ClickBackspace w))))
       = length (userInput s))
  ∧ (clearDisabled s = false →
       userInput s ≠ [] ∧ userInput (st (step words rnd ClickClear w)) = [])
  ∧ (checkDisabled s = false →
       ∃ snd, played (st (step words rnd ClickCheck w)) = played s ++ [snd])
  ∧ (tileDisabled s = false →
       ∀ i letter, shuffledLetters s !! i = Some letter →
         (st (step words rnd (ClickTile i) w) = s
          ↔ String.length (word cw) ≤ length (userInput s) ∧ shake s = true)).
Proof.
  intros Hcw s. subst s.
  unfold tileDisabled, backspaceDisabled, checkDisabled, clearDisabled.
  assert (Hsame : ∀ e, dispatch words e w = st w → step words rnd e w = w).
  { intros e Hd. unfold step. rewrite Hd. apply commit_same. }
  assert (Hst : ∀ e, e ≠ ClickNext → st (step words rnd e w) = dispatch words e w).
  { intros e He. by destruct (step_not_next words rnd e w He) as (_ & _ & ->). }
  split; [|split; [|split; [|split; [|split; [|split; [|split]]]]]].
  - intros Hl i. apply Hsame. unfold dispatch, render_of. rewrite Hcw. simpl.
    destruct (shuffledLetters (st w) !! i); [|done].
    unfold handleLetterClick. simpl. by rewrite Hl.
  - intros Hd. apply Hsame. rewrite (dispatch_backspace words w cw Hcw).
    unfold handleBackspace. simpl. by rewrite Hd.
  - intros Hl. apply Hsame. rewrite (dispatch_check words w cw Hcw).
    by apply handleCheck_locked.
  - intros Hd. apply Hsame. rewrite (dispatch_clear words w cw Hcw).
    unfold handleClear. simpl. by rewrite Hd.
  - intros Hd. rewrite Hst, (dispatch_backspace words w cw Hcw) by done.
    unfold handleBackspace. simpl. rewrite Hd. simpl.
    apply orb_false_iff in Hd as [_ Hn]. apply Nat.eqb_neq in Hn.
    rewrite length_take. lia.
  - intros Hd. rewrite Hst, (dispatch_clear words w cw Hcw) by done.
    unfold handleClear. simpl. rewrite Hd. simpl.
    apply orb_false_iff in Hd as [_ Hn]. apply Nat.eqb_neq in Hn.
    split; [|done]. intros He. by rewrite He in Hn.
  - intros Hl. rewrite Hst, (dispatch_check words w cw Hcw) by done.
    unfold handleCheck. simpl. rewrite Hl.
    repeat case_match; simpl; by eexists.
  - intros Hl i letter Hi.
    rewrite Hst, (dispatch_tile words w cw i letter Hcw Hi) by done.
    unfold handleLetterClick. simpl. rewrite Hl.
    destruct (Nat.leb_spec (String.length (word cw)) (length (userInput (st w))))
      as [Hfull|Hroom].
    + split.
      * intros Heq. split; [done|]. by rewrite <- Heq.
      * intros [_ Hsh]. destruct (st w). simpl in *. by subst.
    + split; [|intros [? _]; lia].
      intros Heq. apply (f_equal userInput) in Heq. simpl in Heq.
      apply (f_equal length) in Heq. rewrite length_app in Heq. simpl in Heq. lia.
Qed.

Lemma disabled_buttons_do_nothing_witness :
  let w := run [hund] sameCell (clicks [0; 1; 2; 3] ++ [ClickCheck])
             (mount [hund] sameCell sameCell freshStorage) in
  step [hund] sameCell ClickBackspace w = w.
Proof.
  intros w.
  destruct (disabled_buttons_do_nothing [hund] w hund sameCell eq_refl)
    as (_ & H & _).
  exact (H eq_refl).
Defined.
